(** * go-broadcast: a shallow embedding of [broadcaster.go] and
    [mux_observer.go], and the properties of the two event loops.

    The package has two objects, each owned by one goroutine that runs
    [for { select { ... } }] over the object's channels:
    - [broadcaster]: an input channel fanned out to a set of endpoints;
    - [MuxObserver]: one loop serving many groups, keyed by sub-handle.

    Channels are modelled by their state (queue, capacity, closed flag) and
    the Go operations on them by functions that say whether the operation
    completes, parks the caller, or panics.  A loop is modelled one
    iteration at a time; the choice a [select] makes among its ready cases
    is an argument of the iteration. *)

From Stdlib Require Import ZArith Lia.
From stdpp Require Import base option list strings gmap fin_maps.

Local Open Scope Z_scope.
Local Open Scope nat_scope.

(** ** Go channels *)
Module GoChan.

(** What a channel operation does to the goroutine that runs it. *)
Inductive outcome (A : Type) : Type :=
| Done (a : A)
| Blocks
| Panics.
Arguments Done {A} a.
Arguments Blocks {A}.
Arguments Panics {A}.

#[global] Instance outcome_ret : MRet outcome := fun _ a => Done a.
#[global] Instance outcome_bind : MBind outcome := fun _ _ f x =>
  match x with
  | Done a => f a
  | Blocks => Blocks
  | Panics => Panics
  end.

(** The state of a channel: the values in its buffer, oldest first, the
    buffer size given to [make], and whether [close] was called. *)
Record chan (A : Type) : Type := Chan {
  queue : list A;
  cap : nat;
  closed : bool
}.
Arguments Chan {A} queue cap closed.
Arguments queue {A} c.
Arguments cap {A} c.
Arguments closed {A} c.

Section ops.
Context {A : Type}.

(** [make(chan A, n)]: a negative size is a run-time panic. *)
Definition make (n : Z) : outcome (chan A) :=
  if (n <? 0)%Z then Panics else Done (Chan [] (Z.to_nat n) false).

(** [make(chan A)]: no buffer. *)
Definition make_unbuffered : chan A := Chan [] 0 false.

Definition enqueue (c : chan A) (v : A) : chan A :=
  Chan (queue c ++ [v]) (cap c) (closed c).

(** [c <- v].  [rcv] tells whether a goroutine is parked receiving on [c];
    the value is then handed to it directly and never enters the buffer.
    Otherwise the value is buffered when there is room, and the sender
    parks when there is none.  Sending on a closed channel panics. *)
Definition send (c : chan A) (rcv : bool) (v : A) : outcome (chan A) :=
  if closed c then Panics
  else if rcv then Done c
  else if length (queue c) <? cap c then Done (enqueue c v)
  else Blocks.

(** [select { case c <- v: true; default: false }]. *)
Definition try_send (c : chan A) (rcv : bool) (v : A) : outcome (bool * chan A) :=
  match send c rcv v with
  | Done c' => Done (true, c')
  | Blocks => Done (false, c)
  | Panics => Panics
  end.

(** [v, ok := <-c].  [snd] is the value offered by a sender parked on [c],
    if there is one.  The result is [None] when the receive is not ready;
    [Some (None, _)] is the [ok = false] of a closed and drained channel. *)
Definition recv (c : chan A) (snd : option A) : option (option A * chan A) :=
  match queue c with
  | v :: q => Some (Some v, Chan q (cap c) (closed c))
  | [] =>
      if closed c then Some (None, c)
      else match snd with
           | Some v => Some (Some v, c)
           | None => None
           end
  end.

(** [close(c)]: closing a closed channel panics.  (A goroutine parked in a
    send on [c] panics too when [c] is closed; parked goroutines are not
    part of the state of a channel here.) *)
Definition close (c : chan A) : outcome (chan A) :=
  if closed c then Panics else Done (Chan (queue c) (cap c) true).

End ops.
End GoChan.

Import GoChan.

(** A reference to a channel held by a subscriber; [None] is Go's [nil]. *)
Abbreviation chanref := (option positive).

(** ** Endpoints

    The loops only ever send on the channels that subscribers register.
    An endpoint is described by the values sent on it so far, oldest
    first (its reader has taken a prefix of them), and by whether its
    owner closed it.  A send on a full endpoint parks the loop until the
    reader makes room and then completes, so it is recorded as completed;
    sends that never complete (a [nil] channel) and sends that panic (a
    closed channel) are told apart by [ch_send]. *)
Module Endpoints.
Section endpoints.
Context {T : Type}.

Record endpoint : Type := Endpoint {
  sent : list T;
  ep_closed : bool
}.

(** An address that is not in the map is a channel nothing was sent on. *)
Definition fresh_endpoint : endpoint := Endpoint [] false.

Definition ep_at (h : gmap positive endpoint) (l : positive) : endpoint :=
  default fresh_endpoint (h !! l).

(** [ch <- v] as run by a loop. *)
Definition ch_send (ch : chanref) (v : T) (h : gmap positive endpoint)
  : outcome (gmap positive endpoint) :=
  match ch with
  | None => Blocks
  | Some l =>
      let e := ep_at h l in
      if ep_closed e then Panics
      else Done (<[l := Endpoint (sent e ++ [v]) false]> h)
  end.

(** The values an endpoint has been sent. *)
Definition received (h : gmap positive endpoint) (ch : chanref) : list T :=
  match ch with
  | None => []
  | Some l => sent (ep_at h l)
  end.

(** An endpoint that can take a value: a channel that is not [nil] and
    not closed. *)
Definition live (h : gmap positive endpoint) (ch : chanref) : Prop :=
  match ch with
  | None => False
  | Some l => ep_closed (ep_at h l) = false
  end.

(** Two heaps agree on which endpoints are closed and on the log of the
    endpoint [c]. *)
Definition agree (h1 h2 : gmap positive endpoint) (c : chanref) : Prop :=
  (∀ l, ep_closed (ep_at h1 l) = ep_closed (ep_at h2 l)) ∧
  received h1 c = received h2 c.

End endpoints.
Arguments endpoint T : clear implicits.
End Endpoints.

Import Endpoints.

Abbreviation heap T := (gmap positive (endpoint T)).

(** How one iteration of a loop ends. *)
Inductive flow : Type :=
| Next      (* back to the top of the [for] *)
| Return    (* the loop function returns *)
| Hang      (* parked for ever in a send on a [nil] channel *)
| Crash.    (* panic: send on a closed channel *)

(** The order in which [for ch := range m] visits the keys of [m] is not
    specified by Go; it is some enumeration of the keys without
    repetition. *)
Class RangeOrder : Type := {
  range_keys : gmap chanref bool → list chanref;
  range_keys_perm : ∀ m, range_keys m ≡ₚ (map_to_list m).*1
}.

#[global] Program Instance sorted_range : RangeOrder :=
  {| range_keys := fun m => (map_to_list m).*1 |}.
Next Obligation. reflexivity. Qed.

(** [for ch := range chs { ch <- m }] over the keys in visiting order. *)
Fixpoint send_each {T} (chs : list chanref) (m : T) (h : heap T) : flow * heap T :=
  match chs with
  | [] => (Next, h)
  | ch :: rest =>
      match ch_send ch m h with
      | Done h' => send_each rest m h'
      | Blocks => (Hang, h)
      | Panics => (Crash, h)
      end
  end.

(** Go's [error]; [None] is [nil]. *)
Abbreviation error := (option string).

(** ** broadcaster.go *)
Module Broadcaster.
Section broadcaster.
Context {T : Type}.
(** The zero value of [T], which a receive on a closed channel yields. *)
Variable zero : T.
Context `{RangeOrder}.

Record broadcaster : Type := mkBroadcaster {
  input : chan T;
  reg : chan chanref;
  unreg : chan chanref;
  outputs : gmap chanref bool
}.

Definition set_input (c : chan T) (b : broadcaster) : broadcaster :=
  mkBroadcaster c (reg b) (unreg b) (outputs b).
Definition set_reg (c : chan chanref) (b : broadcaster) : broadcaster :=
  mkBroadcaster (input b) c (unreg b) (outputs b).
Definition set_unreg (c : chan chanref) (b : broadcaster) : broadcaster :=
  mkBroadcaster (input b) (reg b) c (outputs b).
Definition set_outputs (o : gmap chanref bool) (b : broadcaster) : broadcaster :=
  mkBroadcaster (input b) (reg b) (unreg b) o.

(** [func (b *broadcaster[T]) broadcast(m T)] *)
Definition broadcast (b : broadcaster) (m : T) (h : heap T) : flow * heap T :=
  send_each (range_keys (outputs b)) m h.

(** What the [select] of [run] received, and from which channel. *)
Inductive select_outcome : Type :=
| RecvInput (m : T)
| RecvReg (ch : chanref) (ok : bool)
| RecvUnreg (ch : chanref).

(** The case a [select] goes for, with the value a sender parked on that
    channel is offering, if any. *)
Inductive pick : Type :=
| PickInput (snd : option T)
| PickReg (snd : option chanref)
| PickUnreg (snd : option chanref).

(** The receive of the picked case; [None] when that case is not ready. *)
Definition run_select (p : pick) (b : broadcaster) : option (select_outcome * broadcaster) :=
  match p with
  | PickInput s =>
      match recv (input b) s with
      | Some (Some m, c) => Some (RecvInput m, set_input c b)
      | Some (None, c) => Some (RecvInput zero, set_input c b)
      | None => None
      end
  | PickReg s =>
      match recv (reg b) s with
      | Some (Some ch, c) => Some (RecvReg ch true, set_reg c b)
      | Some (None, c) => Some (RecvReg None false, set_reg c b)
      | None => None
      end
  | PickUnreg s =>
      match recv (unreg b) s with
      | Some (Some ch, c) => Some (RecvUnreg ch, set_unreg c b)
      | Some (None, c) => Some (RecvUnreg None, set_unreg c b)
      | None => None
      end
  end.

(** The three arms of the [select] in [run]. *)
Definition run_body (r : select_outcome) (b : broadcaster) (h : heap T)
  : flow * broadcaster * heap T :=
  match r with
  | RecvInput m =>
      let '(f, h') := broadcast b m h in (f, b, h')
  | RecvReg ch ok =>
      if ok then (Next, set_outputs (<[ch := true]> (outputs b)) b, h)
      else (Return, b, h)
  | RecvUnreg ch =>
      (Next, set_outputs (delete ch (outputs b)) b, h)
  end.

(** One iteration of the [for] in [run].  A case that is not ready cannot
    be taken: the loop stays in its [select]. *)
Definition run_iter (p : pick) (b : broadcaster) (h : heap T)
  : flow * broadcaster * heap T :=
  match run_select p b with
  | Some (r, b') => run_body r b' h
  | None => (Next, b, h)
  end.

(** [func (b *broadcaster[T]) run()], for as many iterations as the
    schedule has picks. *)
Fixpoint run (sched : list pick) (b : broadcaster) (h : heap T)
  : flow * broadcaster * heap T :=
  match sched with
  | [] => (Next, b, h)
  | p :: rest =>
      match run_iter p b h with
      | (Next, b', h') => run rest b' h'
      | stop => stop
      end
  end.

(** The values the loop takes from [input] while it runs the schedule, in
    the order it takes them. *)
Fixpoint dequeued (sched : list pick) (b : broadcaster) (h : heap T) : list T :=
  match sched with
  | [] => []
  | p :: rest =>
      let seen :=
        match run_select p b with
        | Some (RecvInput m, _) => [m]
        | _ => []
        end in
      match run_iter p b h with
      | (Next, b', h') => seen ++ dequeued rest b' h'
      | _ => seen
      end
  end.

(** [func NewBroadcaster[T](buflen int) Broadcaster[T]]; the loop it
    starts is [run]. *)
Definition NewBroadcaster (buflen : Z) : outcome broadcaster :=
  i ← make buflen;
  Done (mkBroadcaster i make_unbuffered make_unbuffered ∅).

(** The methods take the receiver pointer, [None] for [nil], and the
    flag [parked]: whether [run] is parked in its [select], and so is a
    waiting receiver on the three channels.  They give back the object
    the pointer refers to after the call. *)

(** [func (b *broadcaster[T]) Register(newch chan<- T)] *)
Definition Register (b : option broadcaster) (parked : bool) (newch : chanref)
  : outcome (option broadcaster) :=
  match b with
  | None => Panics
  | Some b0 => c ← send (reg b0) parked newch; Done (Some (set_reg c b0))
  end.

(** [func (b *broadcaster[T]) Unregister(newch chan<- T)] *)
Definition Unregister (b : option broadcaster) (parked : bool) (newch : chanref)
  : outcome (option broadcaster) :=
  match b with
  | None => Panics
  | Some b0 => c ← send (unreg b0) parked newch; Done (Some (set_unreg c b0))
  end.

(** [func (b *broadcaster[T]) Close() error] *)
Definition Close (b : option broadcaster) : outcome (error * option broadcaster) :=
  match b with
  | None => Panics
  | Some b0 =>
      r ← close (reg b0);
      u ← close (unreg b0);
      Done (None, Some (set_unreg u (set_reg r b0)))
  end.

(** [func (b *broadcaster[T]) Submit(m T)] *)
Definition Submit (b : option broadcaster) (parked : bool) (m : T)
  : outcome (option broadcaster) :=
  match b with
  | Some b0 => c ← send (input b0) parked m; Done (Some (set_input c b0))
  | None => Done None
  end.

(** [func (b *broadcaster[T]) TrySubmit(m T) bool] *)
Definition TrySubmit (b : option broadcaster) (parked : bool) (m : T)
  : outcome (bool * option broadcaster) :=
  match b with
  | None => Done (false, None)
  | Some b0 =>
      '(ok, c) ← try_send (input b0) parked m;
      Done (ok, Some (set_input c b0))
  end.

(** What changes a broadcaster: a call of one of its methods, or an
    iteration of [run].  Calls and iterations are taken one by one, in any
    order; a hand-off from a sender to the parked loop is two steps here,
    the send and the receive. *)
Inductive step : broadcaster → broadcaster → Prop :=
| step_register b parked ch b' :
    Register (Some b) parked ch = Done (Some b') → step b b'
| step_unregister b parked ch b' :
    Unregister (Some b) parked ch = Done (Some b') → step b b'
| step_close b e b' :
    Close (Some b) = Done (e, Some b') → step b b'
| step_submit b parked m b' :
    Submit (Some b) parked m = Done (Some b') → step b b'
| step_trysubmit b parked m ok b' :
    TrySubmit (Some b) parked m = Done (ok, Some b') → step b b'
| step_iter b p h f b' h' :
    run_iter p b h = (f, b', h') → step b b'.

(** The states a broadcaster made by [NewBroadcaster(n)] goes through. *)
Definition reachable (n : Z) (b : broadcaster) : Prop :=
  ∃ b0, NewBroadcaster n = Done b0 ∧ rtc step b0 b.

(** What holds of a broadcaster all along: only [Close] closes a channel,
    and it closes [reg] and [unreg] together; [input] is never closed and
    holds at most as many values as its buffer has room for; nothing
    stays in the two channels without a buffer; every value of the
    [outputs] map is [true]. *)
Record invariant (n : Z) (b : broadcaster) : Prop := {
  inv_input_open : closed (input b) = false;
  inv_input_cap : cap (input b) = Z.to_nat n;
  inv_input_len : length (queue (input b)) ≤ cap (input b);
  inv_reg_cap : cap (reg b) = 0;
  inv_unreg_cap : cap (unreg b) = 0;
  inv_reg_empty : queue (reg b) = [];
  inv_unreg_empty : queue (unreg b) = [];
  inv_closed_both : closed (unreg b) = closed (reg b);
  inv_outputs_true : ∀ ch v, outputs b !! ch = Some v → v = true
}.

(** The messages the [select] of [run] receives while the loop runs a
    schedule, in the order in which it receives them. *)
Fixpoint selected (sched : list pick) (b : broadcaster) (h : heap T)
  : list select_outcome :=
  match sched with
  | [] => []
  | p :: rest =>
      match run_select p b with
      | Some (r, b1) =>
          r :: match run_body r b1 h with
               | (Next, b', h') => selected rest b' h'
               | _ => []
               end
      | None => selected rest b h
      end
  end.



End broadcaster.
Arguments broadcaster T : clear implicits.
Arguments select_outcome T : clear implicits.
Arguments pick T : clear implicits.
End Broadcaster.

(** ** mux_observer.go *)

(** A pointer to a [subObserver]; [None] is [nil].  A sub-handle is used
    only for its identity: it is the key of its group. *)
Abbreviation subref := (option positive).

Module Mux.
Section mux.
Context {T : Type}.
Variable zero : T.
Context `{RangeOrder}.

(** [taggedObservation]: fields [sub] and [ob]. *)
Record taggedObservation : Type := mkObservation {
  to_sub : subref;
  to_ob : T
}.

(** [register = iota; unregister; purge] *)
Definition register : Z := 0.
Definition unregister : Z := 1.
Definition purge : Z := 2.

(** [taggedRegReq]: fields [sub], [ch] and [regType]. *)
Record taggedRegReq : Type := mkRegReq {
  tr_sub : subref;
  tr_ch : chanref;
  tr_regType : Z
}.

Record MuxObserver : Type := mkMuxObserver {
  subs : gmap subref (gmap chanref bool);
  reg : chan taggedRegReq;
  input : chan taggedObservation
}.

Definition set_subs (s : gmap subref (gmap chanref bool)) (m : MuxObserver) : MuxObserver :=
  mkMuxObserver s (reg m) (input m).
Definition set_reg (c : chan taggedRegReq) (m : MuxObserver) : MuxObserver :=
  mkMuxObserver (subs m) c (input m).
Definition set_input (c : chan taggedObservation) (m : MuxObserver) : MuxObserver :=
  mkMuxObserver (subs m) (reg m) c.

(** [func NewMuxObserver[T](qlen, reglen int) *MuxObserver[T]]; the loop
    it starts is [run]. *)
Definition NewMuxObserver (qlen reglen : Z) : outcome MuxObserver :=
  r ← make reglen;
  i ← make qlen;
  Done (mkMuxObserver ∅ r i).

(** [func (m *MuxObserver[T]) Close() error] *)
Definition Close (m : option MuxObserver) : outcome (error * option MuxObserver) :=
  match m with
  | None => Panics
  | Some m0 => r ← close (reg m0); Done (None, Some (set_reg r m0))
  end.

(** [func (m *MuxObserver[T]) broadcast(to taggedObservation[T])]: the
    index expression [m.subs[to.sub]] of a missing key is a [nil] map,
    over which [range] does nothing. *)
Definition broadcast (m : MuxObserver) (to : taggedObservation) (h : heap T)
  : flow * heap T :=
  match subs m !! to_sub to with
  | Some mm => send_each (range_keys mm) (to_ob to) h
  | None => (Next, h)
  end.

(** [func (m *MuxObserver[T]) doReg(tr taggedRegReq[T])] *)
Definition doReg (m : MuxObserver) (tr : taggedRegReq) : MuxObserver :=
  let mm :=
    match subs m !! tr_sub tr with
    | Some mm => mm
    | None => ∅
    end in
  set_subs (<[tr_sub tr := <[tr_ch tr := true]> mm]> (subs m)) m.

(** [func (m *MuxObserver[T]) doUnreg(tr taggedRegReq[T])] *)
Definition doUnreg (m : MuxObserver) (tr : taggedRegReq) : MuxObserver :=
  match subs m !! tr_sub tr with
  | Some mm =>
      let mm' := delete (tr_ch tr) mm in
      if size mm' =? 0 then set_subs (delete (tr_sub tr) (subs m)) m
      else set_subs (<[tr_sub tr := mm']> (subs m)) m
  | None => m
  end.

(** [func (m *MuxObserver[T]) handleReg(tr taggedRegReq[T])]; the
    [switch] has no [default]. *)
Definition handleReg (m : MuxObserver) (tr : taggedRegReq) : MuxObserver :=
  if (tr_regType tr =? register)%Z then doReg m tr
  else if (tr_regType tr =? unregister)%Z then doUnreg m tr
  else if (tr_regType tr =? purge)%Z then set_subs (delete (tr_sub tr) (subs m)) m
  else m.

(** What a [select] of [run] received. *)
Inductive select_outcome : Type :=
| RecvReg (tr : taggedRegReq) (ok : bool)
| RecvInput (to : taggedObservation).

(** The case a [select] goes for, with the value a sender parked on that
    channel is offering, if any. *)
Inductive pick : Type :=
| PickReg (snd : option taggedRegReq)
| PickInput (snd : option taggedObservation).

(** The zero values that a receive on a closed channel yields. *)
Definition zero_req : taggedRegReq := mkRegReq None None 0.
Definition zero_obs : taggedObservation := mkObservation None zero.

Definition recv_reg (s : option taggedRegReq) (m : MuxObserver)
  : option (select_outcome * MuxObserver) :=
  match recv (reg m) s with
  | Some (Some tr, c) => Some (RecvReg tr true, set_reg c m)
  | Some (None, c) => Some (RecvReg zero_req false, set_reg c m)
  | None => None
  end.

Definition recv_input (s : option taggedObservation) (m : MuxObserver)
  : option (select_outcome * MuxObserver) :=
  match recv (input m) s with
  | Some (Some to, c) => Some (RecvInput to, set_input c m)
  | Some (None, c) => Some (RecvInput zero_obs, set_input c m)
  | None => None
  end.

(** The arms of the two [select]s of [run]; both [select]s treat a
    registration request the same way. *)
Definition run_body (r : select_outcome) (m : MuxObserver) (h : heap T)
  : flow * MuxObserver * heap T :=
  match r with
  | RecvReg tr ok =>
      if ok then (Next, handleReg m tr, h) else (Return, m, h)
  | RecvInput to =>
      let '(f, h') := broadcast m to h in (f, m, h')
  end.

(** Where the loop is: at the outer [select], which has the [reg] case
    and a [default], or in the inner one, which blocks on both queues. *)
Inductive pc : Type :=
| AtCheck
| AtWait.

(** The sender on [reg] that a pick brings along. *)
Definition reg_offer (p : pick) : option taggedRegReq :=
  match p with
  | PickReg s => s
  | PickInput _ => None
  end.

(** The receive of the [select] the loop is at: the outer one has the
    [reg] case only, the inner one the case that is picked.  [None] when
    that case is not ready. *)
Definition run_select (p : pick) (at_ : pc) (m : MuxObserver)
  : option (select_outcome * MuxObserver) :=
  match at_ with
  | AtCheck => recv_reg (reg_offer p) m
  | AtWait =>
      match p with
      | PickInput s => recv_input s m
      | PickReg s => recv_reg s m
      end
  end.

(** One [select] of [run].  When the outer one finds [reg] not ready, its
    [default] leads to the inner one; a case of the inner one that is not
    ready cannot be taken.  After an arm has run, the loop is back at the
    outer [select]. *)
Definition run_step (p : pick) (at_ : pc) (m : MuxObserver) (h : heap T)
  : flow * pc * MuxObserver * heap T :=
  match run_select p at_ m with
  | Some (r, m') => let '(f, m'', h') := run_body r m' h in (f, AtCheck, m'', h')
  | None => (Next, AtWait, m, h)
  end.

(** [func (m *MuxObserver[T]) run()], for as many [select]s as the
    schedule has picks. *)
Fixpoint run (sched : list pick) (at_ : pc) (m : MuxObserver) (h : heap T)
  : flow * pc * MuxObserver * heap T :=
  match sched with
  | [] => (Next, at_, m, h)
  | p :: rest =>
      match run_step p at_ m h with
      | (Next, at', m', h') => run rest at' m' h'
      | stop => stop
      end
  end.

(** The messages the [select]s receive while the loop runs a schedule,
    in the order in which it receives them. *)
Fixpoint selected (sched : list pick) (at_ : pc) (m : MuxObserver) (h : heap T)
  : list select_outcome :=
  match sched with
  | [] => []
  | p :: rest =>
      match run_select p at_ m with
      | Some (r, m1) =>
          r :: match run_body r m1 h with
               | (Next, m', h') => selected rest AtCheck m' h'
               | _ => []
               end
      | None => selected rest AtWait m h
      end
  end.

(** The arms of the loop run on a sequence of received messages. *)
Fixpoint run_events (evs : list select_outcome) (m : MuxObserver) (h : heap T)
  : flow * MuxObserver * heap T :=
  match evs with
  | [] => (Next, m, h)
  | r :: rest =>
      match run_body r m h with
      | (Next, m', h') => run_events rest m' h'
      | stop => stop
      end
  end.

(** A sequence of received messages without the observations that were
    submitted through the sub-handle [s]. *)
Fixpoint without_group (s : subref) (evs : list select_outcome) : list select_outcome :=
  match evs with
  | [] => []
  | RecvInput to :: rest =>
      if decide (to_sub to = s) then without_group s rest
      else RecvInput to :: without_group s rest
  | r :: rest => r :: without_group s rest
  end.

(** [func (m *MuxObserver[T]) Sub() Broadcaster[T]]: [&subObserver[T]{m}]
    is a new object, at the next free address [next]. *)
Definition Sub (next : positive) : subref * positive :=
  (Some next, Pos.succ next).

(** The methods of a sub-handle [s].  [m] is the observer that [s.mo]
    points to, and [parked] tells whether its loop is parked in the inner
    [select]. *)

(** [func (s *subObserver[T]) Register(ch chan<- T)] *)
Definition subObserver_Register (s : subref) (m : MuxObserver) (parked : bool)
    (ch : chanref) : outcome MuxObserver :=
  match s with
  | None => Panics
  | Some _ => c ← send (reg m) parked (mkRegReq s ch register); Done (set_reg c m)
  end.

(** [func (s *subObserver[T]) Unregister(ch chan<- T)] *)
Definition subObserver_Unregister (s : subref) (m : MuxObserver) (parked : bool)
    (ch : chanref) : outcome MuxObserver :=
  match s with
  | None => Panics
  | Some _ => c ← send (reg m) parked (mkRegReq s ch unregister); Done (set_reg c m)
  end.

(** [func (s *subObserver[T]) Close() error] *)
Definition subObserver_Close (s : subref) (m : MuxObserver) (parked : bool)
  : outcome (error * MuxObserver) :=
  match s with
  | None => Panics
  | Some _ => c ← send (reg m) parked (mkRegReq s None purge); Done (None, set_reg c m)
  end.

(** [func (s *subObserver[T]) Submit(ob T)]: [s.mo] is evaluated without
    a test of [s]. *)
Definition subObserver_Submit (s : subref) (m : MuxObserver) (parked : bool)
    (ob : T) : outcome MuxObserver :=
  match s with
  | None => Panics
  | Some _ => c ← send (input m) parked (mkObservation s ob); Done (set_input c m)
  end.

(** [func (s *subObserver[T]) TrySubmit(ob T) bool] *)
Definition subObserver_TrySubmit (s : subref) (m : MuxObserver) (parked : bool)
    (ob : T) : outcome (bool * MuxObserver) :=
  match s with
  | None => Done (false, m)
  | Some _ =>
      '(ok, c) ← try_send (input m) parked (mkObservation s ob);
      Done (ok, set_input c m)
  end.

(** What changes an observer: a call on it or on one of its sub-handles,
    or a [select] of [run], taken one by one in any order. *)
Inductive step : MuxObserver → MuxObserver → Prop :=
| step_close m e m' :
    Close (Some m) = Done (e, Some m') → step m m'
| step_register m s parked ch m' :
    subObserver_Register s m parked ch = Done m' → step m m'
| step_unregister m s parked ch m' :
    subObserver_Unregister s m parked ch = Done m' → step m m'
| step_purge m s parked e m' :
    subObserver_Close s m parked = Done (e, m') → step m m'
| step_submit m s parked ob m' :
    subObserver_Submit s m parked ob = Done m' → step m m'
| step_trysubmit m s parked ob ok m' :
    subObserver_TrySubmit s m parked ob = Done (ok, m') → step m m'
| step_select m p at_ h f at' m' h' :
    run_step p at_ m h = (f, at', m', h') → step m m'.

(** The states an observer made by [NewMuxObserver] goes through. *)
Definition reachable (m : MuxObserver) : Prop :=
  ∃ qlen reglen m0, NewMuxObserver qlen reglen = Done m0 ∧ rtc step m0 m.

(** The endpoint [ch] is not registered under the sub-handle [s]. *)
Definition absent (s : subref) (ch : chanref) (m : MuxObserver) : Prop :=
  ∀ mm, subs m !! s = Some mm → mm !! ch = None.

(** What holds of the subscriptions all along: no group is empty, and
    every value of the map of a group is [true]. *)
Record invariant (m : MuxObserver) : Prop := {
  inv_nonempty : ∀ s mm, subs m !! s = Some mm → mm ≠ ∅;
  inv_true : ∀ s mm ch v, subs m !! s = Some mm → mm !! ch = Some v → v = true
}.

End mux.
Arguments taggedObservation T : clear implicits.
Arguments taggedRegReq : clear implicits.
Arguments MuxObserver T : clear implicits.
Arguments select_outcome T : clear implicits.
Arguments pick T : clear implicits.
End Mux.

(** * Properties *)

(** ** Channel operations *)
Section chan_facts.

Lemma outcome_bind_done {A B} (x : outcome A) (f : A → outcome B) y :
  x ≫= f = Done y → ∃ a, x = Done a ∧ f a = Done y.
Proof. destruct x; simpl; [eauto|done..]. Qed.

Lemma send_done {A} (c c' : chan A) rcv v :
  send c rcv v = Done c' →
  closed c = false ∧
  (c' = c ∨ (length (queue c) < cap c ∧ c' = enqueue c v)).
Proof.
  unfold send. destruct (closed c); [done|]. destruct rcv.
  - intros [= <-]. auto.
  - destruct (length (queue c) <? cap c) eqn:Hlt; [|done].
    intros [= <-]. apply Nat.ltb_lt in Hlt. auto.
Qed.

Lemma recv_some {A} (c c' : chan A) snd v :
  recv c snd = Some (v, c') →
  cap c' = cap c ∧ closed c' = closed c ∧ length (queue c') ≤ length (queue c).
Proof.
  unfold recv. destruct (queue c) as [|x q] eqn:Hq.
  - destruct (closed c) eqn:Hcl; [intros [= <- <-]; rewrite Hq; auto|].
    destruct snd as [x|]; [|done]. intros [= <- <-]. rewrite Hq; auto.
  - intros [= <- <-]. simpl. auto with lia.
Qed.

Lemma recv_unbuffered {A} (c c' : chan A) snd v :
  recv c snd = Some (v, c') → queue c = [] → c' = c.
Proof.
  unfold recv. intros Hr Hq. rewrite Hq in Hr.
  destruct (closed c); [by injection Hr as <- <-|].
  destruct snd as [x|]; [|done]. by injection Hr as <- <-.
Qed.

End chan_facts.

(** ** Sends of a loop to its endpoints *)
Section fan_out.
Context {T : Type} `{RangeOrder}.
Implicit Types (h : heap T) (ch c : chanref) (m : T).


Lemma elem_of_range_keys (o : gmap chanref bool) ch :
  ch ∈ range_keys o ↔ is_Some (o !! ch).
Proof.
  rewrite range_keys_perm, list_elem_of_fmap. split.
  - intros [[k v] [-> Hkv]]. apply elem_of_map_to_list in Hkv. by exists v.
  - intros [v Hv]. exists (ch, v). split; [done|]. by apply elem_of_map_to_list.
Qed.

Lemma ep_at_insert h l l' (e : endpoint T) :
  ep_at (<[l := e]> h) l' = if decide (l = l') then e else ep_at h l'.
Proof.
  unfold ep_at. rewrite lookup_insert. by destruct (decide (l = l')).
Qed.

(** A send that completes appends the value to the log of that endpoint
    and changes nothing else. *)
Lemma ch_send_done ch m h h' :
  ch_send ch m h = Done h' →
  live h ch ∧
  (∀ c, received h' c = received h c ++ (if decide (c = ch) then [m] else [])) ∧
  (∀ l, ep_closed (ep_at h' l) = ep_closed (ep_at h l)).
Proof.
  destruct ch as [l|]; simpl; [|done].
  destruct (ep_closed (ep_at h l)) eqn:Hc; [done|].
  intros [= <-]. split; [done|]. split.
  - intros [l'|]; unfold received.
    + rewrite ep_at_insert. destruct (decide (l = l')) as [->|Hne].
      * by rewrite decide_True.
      * rewrite decide_False by congruence. by rewrite app_nil_r.
    + by rewrite decide_False.
  - intros l'. rewrite ep_at_insert. destruct (decide (l = l')) as [->|]; simpl; congruence.
Qed.




(** A fan-out never makes the loop return. *)
Lemma send_each_flow chs m h : (send_each chs m h).1 ≠ Return.
Proof.
  revert h. induction chs as [|ch chs IH]; intros h; simpl; [done|].
  destruct (ch_send ch m h); [apply IH|done..].
Qed.

(** On two heaps that agree, a fan-out ends the same way, and they agree
    afterwards. *)
Lemma send_each_agree chs m h1 h2 c :
  agree h1 h2 c →
  (send_each chs m h1).1 = (send_each chs m h2).1 ∧
  agree (send_each chs m h1).2 (send_each chs m h2).2 c.
Proof.
  revert h1 h2. induction chs as [|ch chs IH]; intros h1 h2 [Hcl Hlog]; cbn [send_each].
  - done.
  - destruct ch as [l|]; cbn [ch_send]; [|done].
    rewrite <- Hcl. destruct (ep_closed (ep_at h1 l)) eqn:Hc; [done|].
    apply IH. split.
    + intros l'. rewrite !ep_at_insert. destruct (decide (l = l')); [done|apply Hcl].
    + destruct c as [l'|]; [|done]. unfold received in *. rewrite !ep_at_insert.
      destruct (decide (l = l')) as [->|]; [|done]. simpl. by rewrite Hlog.
Qed.

(** A fan-out only ever extends the log of an endpoint, and does not touch
    the log of an endpoint that is not in the list. *)
Lemma send_each_grows chs m h c :
  received h c `prefix_of` received (send_each chs m h).2 c ∧
  (c ∉ chs → received (send_each chs m h).2 c = received h c) ∧
  (∀ l, ep_closed (ep_at (send_each chs m h).2 l) = ep_closed (ep_at h l)).
Proof.
  revert h. induction chs as [|ch chs IH]; intros h; cbn [send_each].
  - split; [done|]. split; [done|done].
  - destruct (ch_send ch m h) as [h1| |] eqn:Hs; [|by repeat split..].
    apply ch_send_done in Hs as (_ & Hlog & Hcl).
    destruct (IH h1) as (Hpre & Habs & Hcl'). split; [|split].
    + etrans; [|apply Hpre]. rewrite Hlog. by apply prefix_app_r.
    + intros Hnin. rewrite Habs, Hlog.
      * rewrite decide_False; [by rewrite app_nil_r|]. intros ->. apply Hnin. left.
      * intros Hin. apply Hnin. by right.
    + intros l. by rewrite Hcl', Hcl.
Qed.

End fan_out.

(** ** The broadcaster *)
Module BroadcasterProps.
Import Broadcaster.
Section props.
Context {T : Type} (zero : T) `{RangeOrder}.
Implicit Types (b : broadcaster T) (h : heap T) (ch c : chanref) (m : T).

Lemma run_select_invariant n p b r b1 :
  invariant n b → run_select zero p b = Some (r, b1) →
  invariant n b1 ∧ outputs b1 = outputs b.
Proof.
  intros [] Hsel. destruct p as [s|s|s]; simpl in Hsel.
  - destruct (recv (input b) s) as [[v c]|] eqn:Hr; [|done].
    apply recv_some in Hr as (Hc & Hcl & Hl).
    assert (b1 = set_input c b) as -> by (destruct v; by injection Hsel as <- <-).
    split; [|done]. split; simpl; try done; try congruence; lia.
  - destruct (recv (reg b) s) as [[v c]|] eqn:Hr; [|done].
    apply recv_unbuffered in Hr as ->; [|done].
    assert (b1 = set_reg (reg b) b) as -> by (destruct v; by injection Hsel as <- <-).
    split; [|done]. by split.
  - destruct (recv (unreg b) s) as [[v c]|] eqn:Hr; [|done].
    apply recv_unbuffered in Hr as ->; [|done].
    assert (b1 = set_unreg (unreg b) b) as -> by (destruct v; by injection Hsel as <- <-).
    split; [|done]. by split.
Qed.

Lemma run_body_invariant n r b h f b' h' :
  invariant n b → run_body r b h = (f, b', h') → invariant n b'.
Proof.
  intros Hinv Hop. destruct r as [m|ch ok|ch]; simpl in Hop.
  - destruct (broadcast b m h) as [f0 h0]. by injection Hop as <- <- <-.
  - destruct ok; injection Hop as <- <- <-; [|done].
    destruct Hinv; split; simpl; try done.
    intros c v. rewrite lookup_insert. destruct (decide (ch = c)); [congruence|eauto].
  - injection Hop as <- <- <-. destruct Hinv; split; simpl; try done.
    intros c v. rewrite lookup_delete. destruct (decide (ch = c)); [done|eauto].
Qed.

Lemma step_invariant n b b' : step zero b b' → invariant n b → invariant n b'.
Proof.
  intros [b0 parked ch b1 Hop|b0 parked ch b1 Hop|b0 e b1 Hop
         |b0 parked m b1 Hop|b0 parked m ok b1 Hop|b0 p h f b1 h' Hop] IH.
  - simpl in Hop. apply outcome_bind_done in Hop as (c & Hs & [= <-]).
    destruct IH. apply send_done in Hs as (Hopen & [->|[Hlt ->]]).
    + by split.
    + rewrite inv_reg_empty0, inv_reg_cap0 in Hlt. simpl in Hlt. lia.
  - simpl in Hop. apply outcome_bind_done in Hop as (c & Hs & [= <-]).
    destruct IH. apply send_done in Hs as (Hopen & [->|[Hlt ->]]).
    + by split.
    + rewrite inv_unreg_empty0, inv_unreg_cap0 in Hlt. simpl in Hlt. lia.
  - simpl in Hop. apply outcome_bind_done in Hop as (r & Hr & Hop).
    apply outcome_bind_done in Hop as (u & Hu & [= <- <-]).
    unfold close in Hr, Hu. destruct (closed (reg b0)); [done|].
    destruct (closed (unreg b0)); [done|]. injection Hr as <-. injection Hu as <-.
    destruct IH; split; simpl; done.
  - simpl in Hop. apply outcome_bind_done in Hop as (c & Hs & [= <-]).
    destruct IH. apply send_done in Hs as (Hopen & [->|[Hlt ->]]).
    + by split.
    + split; simpl; try done. rewrite length_app. simpl. lia.
  - simpl in Hop. apply outcome_bind_done in Hop as ([ok' c] & Hs & [= <- <-]).
    unfold try_send in Hs. destruct (send (input b0) parked m) as [c'| |] eqn:Hsend; [| |done].
    + injection Hs as <- <-. destruct IH.
      apply send_done in Hsend as (Hopen & [->|[Hlt ->]]).
      * by split.
      * split; simpl; try done. rewrite length_app. simpl. lia.
    + injection Hs as <- <-. by destruct IH; split.
  - unfold run_iter in Hop. destruct (run_select zero p b0) as [[r b2]|] eqn:Hsel.
    + apply (run_select_invariant n) in Hsel as [IH1 _]; [|done].
      exact (run_body_invariant n r b2 h f b1 h' IH1 Hop).
    + by injection Hop as <- <- <-.
Qed.

Lemma new_invariant n b : NewBroadcaster n = Done b → invariant n b.
Proof.
  unfold NewBroadcaster, make. destruct (n <? 0)%Z; [done|].
  simpl. intros [= <-]. split; simpl; try done; lia.
Qed.

Lemma reachable_invariant n b : reachable zero n b → invariant n b.
Proof.
  intros (b0 & Hnew & Hsteps). apply new_invariant in Hnew.
  induction Hsteps as [|b1 b2 b3 Hstep _ IH]; [done|].
  apply IH. by apply (step_invariant n b1).
Qed.

Lemma reach_new n b : NewBroadcaster n = Done b → reachable zero n b.
Proof. intros Hnew. by exists b. Qed.

Lemma reach_step n b b' : reachable zero n b → step zero b b' → reachable zero n b'.
Proof.
  intros (b0 & Hnew & Hsteps) Hstep. exists b0. split; [done|].
  by eapply rtc_r.
Qed.

(** *** Fan-out *)

Lemma run_select_outputs p b r b1 :
  run_select zero p b = Some (r, b1) → outputs b1 = outputs b.
Proof.
  destruct p as [s|s|s]; simpl.
  - destruct (recv (input b) s) as [[[v|] c]|]; [| |done]; by intros [= <- <-].
  - destruct (recv (reg b) s) as [[[v|] c]|]; [| |done]; by intros [= <- <-].
  - destruct (recv (unreg b) s) as [[[v|] c]|]; [| |done]; by intros [= <- <-].
Qed.





(** *** Non-blocking submission *)

Lemma set_input_same b : set_input (input b) b = b.
Proof. by destruct b. Qed.

(** When the loop is parked in its [select], a value is handed to it
    whatever the buffer holds: the boundary below is that of a loop that is
    not receiving. *)
Lemma try_submit_handoff n b m :
  reachable zero n b → TrySubmit (Some b) true m = Done (true, Some b).
Proof.
  intros [Hopen _ _ _ _ _ _ _ _]%reachable_invariant.
  simpl. unfold try_send, send. rewrite Hopen. simpl. by rewrite set_input_same.
Qed.


(** *** Shutdown *)

Lemma set_reg_same b : set_reg (reg b) b = b.
Proof. by destruct b. Qed.

(** The loop returns from one place only: the [reg] arm, on [ok = false],
    which a receive gives only on a closed channel. *)
Lemma run_iter_return p b h b' h' :
  run_iter zero p b h = (Return, b', h') →
  (∃ s, p = PickReg s) ∧ closed (reg b) = true ∧ queue (reg b) = [].
Proof.
  unfold run_iter. destruct (run_select zero p b) as [[r b1]|] eqn:Hsel; [|done].
  destruct r as [m|ch ok|ch]; simpl.
  - unfold broadcast. pose proof (send_each_flow (range_keys (outputs b1)) m h) as Hf.
    destruct (send_each _ m h) as [f h1]. intros [= -> _ _]. done.
  - destruct ok; [done|]. intros _. destruct p as [s|s|s]; simpl in Hsel.
    + by destruct (recv (input b) s) as [[[v|] c]|].
    + split; [by exists s|]. unfold recv in Hsel.
      destruct (queue (reg b)); [|done].
      destruct (closed (reg b)); [done|]. by destruct s.
    + by destruct (recv (unreg b) s) as [[[v|] c]|].
  - done.
Qed.

(** C8. Close.  On a broadcaster that was not closed before, [Close]
    closes [reg] and [unreg], touches nothing else, and returns [nil]; the
    iteration of the loop that then receives from [reg] returns, and no
    iteration returned before.  Whenever [Close] returns, it returns
    [nil]. *)
Theorem close_stops_loop n b :
  reachable zero n b →
  closed (reg b) = false →
  (∃ b', Close (Some b) = Done (None, Some b') ∧
     closed (reg b') = true ∧ closed (unreg b') = true ∧
     input b' = input b ∧ outputs b' = outputs b ∧
     ∀ s h, run_iter zero (PickReg s) b' h = (Return, b', h)) ∧
  (∀ p h, (run_iter zero p b h).1.1 ≠ Return) ∧
  (∀ (r r' : option (broadcaster T)) e, Close r = Done (e, r') → e = None).
Proof.
  intros Hinv%reachable_invariant Hopen.
  destruct Hinv as [_ _ _ _ _ Hregq _ Hboth _].
  split; [|split].
  - simpl. unfold close. rewrite Hboth, Hopen. simpl.
    eexists. split; [done|]. simpl. repeat (split; [done|]).
    intros s h. unfold run_iter. simpl. unfold recv. simpl.
    rewrite Hregq. simpl. by destruct b.
  - intros p h Hret. destruct (run_iter zero p b h) as [[f b'] h'] eqn:Hit.
    simpl in Hret. subst f. apply run_iter_return in Hit as (_ & Hcl & _). congruence.
  - intros [b0|] r' e; simpl; [|done].
    destruct (close (reg b0)); simpl; [|done..].
    destruct (close (unreg b0)); simpl; [|done..]. by intros [= <- _].
Qed.

End props.

(** The theorems at a broadcaster of [int] with an input queue of
    capacity 1 that holds the value 7, and one endpoint registered. *)



Lemma close_stops_loop_witness :
  let b : broadcaster nat :=
    mkBroadcaster (Chan [] 1 false) make_unbuffered make_unbuffered ∅ in
  (∃ b', Close (Some b) = Done (None, Some b') ∧
     closed (reg b') = true ∧ closed (unreg b') = true ∧
     input b' = input b ∧ outputs b' = outputs b ∧
     ∀ s h, run_iter 0 (PickReg s) b' h = (Return, b', h)) ∧
  (∀ p h, (run_iter 0 p b h).1.1 ≠ Return) ∧
  (∀ (r r' : option (broadcaster nat)) e, Close r = Done (e, r') → e = None).
Proof.
  intros b. apply (close_stops_loop 0 1 b).
  - apply reach_new. reflexivity.
  - reflexivity.
Defined.

End BroadcasterProps.

(** ** The multiplexed observer *)
Module MuxProps.
Import Mux.
Section props.
Context {T : Type} (zero : T) `{RangeOrder}.
Implicit Types (m : MuxObserver T) (h : heap T) (ch c : chanref) (s : subref).
Implicit Types (tr : taggedRegReq) (to : taggedObservation T).

(** *** Subscriptions *)

Lemma doReg_subs m tr :
  subs (doReg m tr) =
    <[tr_sub tr := <[tr_ch tr := true]> (default ∅ (subs m !! tr_sub tr))]> (subs m).
Proof. unfold doReg. by destruct (subs m !! tr_sub tr). Qed.

Lemma handleReg_chans m tr :
  reg (handleReg m tr) = reg m ∧ input (handleReg m tr) = input m.
Proof.
  unfold handleReg, doReg, doUnreg.
  repeat case_match; done.
Qed.

Lemma invariant_subs m m' : subs m' = subs m → invariant m → invariant m'.
Proof. intros Heq [Hne Htrue]. split; rewrite Heq; eauto. Qed.

Lemma handleReg_invariant m tr : invariant m → invariant (handleReg m tr).
Proof.
  intros [Hne Htrue]. unfold handleReg.
  destruct (tr_regType tr =? register)%Z; [|destruct (tr_regType tr =? unregister)%Z;
    [|destruct (tr_regType tr =? purge)%Z; [|done]]].
  - split; rewrite doReg_subs.
    + intros s mm. rewrite lookup_insert. destruct (decide (tr_sub tr = s)) as [Heq|]; [|eauto].
      intros [= <-]. apply insert_non_empty.
    + intros s mm ch v. rewrite lookup_insert.
      destruct (decide (tr_sub tr = s)) as [Heq|]; [|eauto].
      intros [= <-]. rewrite lookup_insert. destruct (decide (tr_ch tr = ch)); [congruence|].
      subst s. destruct (subs m !! tr_sub tr) as [mm0|] eqn:Hs; simpl; [eauto|by rewrite lookup_empty].
  - unfold doUnreg. destruct (subs m !! tr_sub tr) as [mm0|] eqn:Hs; [|done].
    destruct (size (delete (tr_ch tr) mm0) =? 0) eqn:Hsz; split; simpl.
    + intros s mm. rewrite lookup_delete. destruct (decide (tr_sub tr = s)); [done|eauto].
    + intros s mm ch v. rewrite lookup_delete. destruct (decide (tr_sub tr = s)); [done|eauto].
    + intros s mm. rewrite lookup_insert. destruct (decide (tr_sub tr = s)) as [Heq|]; [|eauto].
      intros [= <-] Hempty. by rewrite Hempty, map_size_empty in Hsz.
    + intros s mm ch v. rewrite lookup_insert.
      destruct (decide (tr_sub tr = s)) as [Heq|]; [|eauto].
      intros [= <-]. rewrite lookup_delete. destruct (decide (tr_ch tr = ch)); [done|eauto].
  - split; simpl.
    + intros s mm. rewrite lookup_delete. destruct (decide (tr_sub tr = s)); [done|eauto].
    + intros s mm ch v. rewrite lookup_delete. destruct (decide (tr_sub tr = s)); [done|eauto].
Qed.

Lemma recv_reg_subs o m r m1 : recv_reg o m = Some (r, m1) → subs m1 = subs m.
Proof.
  unfold recv_reg. destruct (recv (reg m) o) as [[[v|] c]|]; [| |done]; by intros [= <- <-].
Qed.

Lemma recv_input_subs o m r m1 : recv_input zero o m = Some (r, m1) → subs m1 = subs m.
Proof.
  unfold recv_input. destruct (recv (input m) o) as [[[v|] c]|]; [| |done]; by intros [= <- <-].
Qed.

Lemma run_select_subs p at_ m r m1 :
  run_select zero p at_ m = Some (r, m1) → subs m1 = subs m.
Proof.
  destruct at_; simpl; [apply recv_reg_subs|].
  destruct p; [apply recv_reg_subs|apply recv_input_subs].
Qed.

Lemma mux_run_body_invariant r m h : invariant m → invariant (run_body r m h).1.2.
Proof.
  intros Hinv. destruct r as [tr ok|to]; simpl.
  - destruct ok; simpl; [by apply handleReg_invariant|done].
  - by destruct (broadcast m to h).
Qed.

Lemma mux_step_invariant m m' : step zero m m' → invariant m → invariant m'.
Proof.
  intros [m0 e m1 Hop|m0 s parked ch m1 Hop|m0 s parked ch m1 Hop|m0 s parked e m1 Hop
         |m0 s parked ob m1 Hop|m0 s parked ob ok m1 Hop
         |m0 p at_ h f at' m1 h' Hop] IH.
  - simpl in Hop. apply outcome_bind_done in Hop as (r & _ & [= _ <-]).
    by apply (invariant_subs m0).
  - destruct s; simpl in Hop; [|done].
    apply outcome_bind_done in Hop as (r & _ & [= <-]). by apply (invariant_subs m0).
  - destruct s; simpl in Hop; [|done].
    apply outcome_bind_done in Hop as (r & _ & [= <-]). by apply (invariant_subs m0).
  - destruct s; simpl in Hop; [|done].
    apply outcome_bind_done in Hop as (r & _ & [= _ <-]). by apply (invariant_subs m0).
  - destruct s; simpl in Hop; [|done].
    apply outcome_bind_done in Hop as (r & _ & [= <-]). by apply (invariant_subs m0).
  - destruct s; simpl in Hop; [|by injection Hop as _ <-].
    apply outcome_bind_done in Hop as ([ok' c] & _ & [= _ <-]). by apply (invariant_subs m0).
  - unfold run_step in Hop.
    destruct (run_select zero p at_ m0) as [[r m2]|] eqn:Hsel; [|by injection Hop as _ _ <- _].
    apply run_select_subs in Hsel.
    pose proof (mux_run_body_invariant r m2 h (invariant_subs m0 m2 Hsel IH)) as Hinv.
    destruct (run_body r m2 h) as [[f0 m3] h0]. by injection Hop as _ _ <- _.
Qed.

Lemma mux_reachable_invariant m : reachable zero m → invariant m.
Proof.
  intros (qlen & reglen & m0 & Hnew & Hsteps).
  assert (invariant m0) as Hinv.
  { unfold NewMuxObserver in Hnew.
    apply outcome_bind_done in Hnew as (r & _ & Hnew).
    apply outcome_bind_done in Hnew as (i & _ & [= <-]).
    split; simpl; intros s mm; by rewrite lookup_empty. }
  clear Hnew. induction Hsteps as [|m1 m2 m3 Hstep _ IH]; [done|].
  apply IH. by apply (mux_step_invariant m1).
Qed.

Lemma mux_reach_new qlen reglen m : NewMuxObserver qlen reglen = Done m → reachable zero m.
Proof. intros Hnew. by exists qlen, reglen, m. Qed.

Lemma mux_reach_step m m' : reachable zero m → step zero m m' → reachable zero m'.
Proof.
  intros (qlen & reglen & m0 & Hnew & Hsteps) Hstep. exists qlen, reglen, m0.
  split; [done|]. by eapply rtc_r.
Qed.

(** C4. Subscription entries.  In every state the observer reaches, and
    after every registration-queue request its loop applies to such a
    state, a sub-handle has an entry in [subs] only with at least one
    endpoint in it.  An unregister request removes its endpoint from the
    entry while another endpoint is left, and deletes the entry in the same
    step when it removes the last one; a purge request deletes the entry of
    its sub-handle whatever it holds, and no other entry. *)
Theorem entries_never_empty m :
  reachable zero m →
  (∀ s mm, subs m !! s = Some mm → mm ≠ ∅) ∧
  (∀ tr s mm, subs (handleReg m tr) !! s = Some mm → mm ≠ ∅) ∧
  (∀ s ch mm, subs m !! s = Some mm →
     (∀ c, is_Some (mm !! c) → c = ch) →
     subs (handleReg m (mkRegReq s ch unregister)) !! s = None) ∧
  (∀ s ch mm c, subs m !! s = Some mm →
     is_Some (mm !! c) → c ≠ ch →
     subs (handleReg m (mkRegReq s ch unregister)) !! s = Some (delete ch mm)) ∧
  (∀ s ch, subs (handleReg m (mkRegReq s ch purge)) = delete s (subs m)).
Proof.
  intros Hinv%mux_reachable_invariant. split; [|split; [|split; [|split]]].
  - apply Hinv.
  - intros tr. apply handleReg_invariant, Hinv.
  - intros s ch mm Hs Hlast. unfold handleReg, doUnreg. simpl. rewrite Hs.
    assert (delete ch mm = ∅) as ->.
    { apply map_eq. intros c. rewrite lookup_delete, lookup_empty.
      destruct (decide (ch = c)) as [|Hne]; [done|].
      destruct (mm !! c) eqn:Hc; [|done]. destruct Hne. symmetry. by apply Hlast. }
    rewrite map_size_empty. simpl. apply lookup_delete_eq.
  - intros s ch mm c Hs [v Hc] Hne. unfold handleReg, doUnreg. simpl. rewrite Hs.
    destruct (size (delete ch mm) =? 0) eqn:Hsz.
    + apply Nat.eqb_eq, map_size_empty_iff in Hsz.
      assert (delete ch mm !! c = Some v) as Hc' by (by rewrite lookup_delete_ne).
      by rewrite Hsz, lookup_empty in Hc'.
    + simpl. apply lookup_insert_eq.
  - done.
Qed.

(** *** The two selects of the loop *)

Lemma run_body_return r m h :
  (run_body r m h).1.1 = Return ↔ ∃ tr, r = RecvReg tr false.
Proof.
  destruct r as [tr ok|to]; simpl.
  - destruct ok; simpl; split; [done|by intros [? [=]]|by eexists|done].
  - unfold broadcast. split; [|by intros [? [=]]].
    destruct (subs m !! to_sub to) as [mm|]; [|done].
    pose proof (send_each_flow (range_keys mm) (to_ob to) h) as Hf.
    by destruct (send_each _ _ h).
Qed.




(** *** Demultiplexing *)


(** *** Isolation of the groups *)

Lemma handleReg_absent s ch m tr :
  absent s ch m →
  (tr_sub tr = s → tr_regType tr = register → tr_ch tr ≠ ch) →
  absent s ch (handleReg m tr).
Proof.
  intros Habs Hne. unfold handleReg.
  destruct (tr_regType tr =? register)%Z eqn:Hreg;
    [|destruct (tr_regType tr =? unregister)%Z;
      [|destruct (tr_regType tr =? purge)%Z; [|done]]].
  - apply Z.eqb_eq in Hreg. intros mm. rewrite doReg_subs, lookup_insert.
    destruct (decide (tr_sub tr = s)) as [Heq|]; [|apply Habs].
    intros [= <-]. rewrite lookup_insert_ne by auto.
    subst s. destruct (subs m !! tr_sub tr) as [mm0|] eqn:Hs; simpl; [by apply Habs|done].
  - unfold doUnreg. destruct (subs m !! tr_sub tr) as [mm0|] eqn:Hs; [|done].
    destruct (size (delete (tr_ch tr) mm0) =? 0); intros mm; simpl.
    + rewrite lookup_delete. destruct (decide (tr_sub tr = s)); [done|apply Habs].
    + rewrite lookup_insert. destruct (decide (tr_sub tr = s)) as [Heq|]; [|apply Habs].
      intros [= <-]. rewrite lookup_delete. destruct (decide (tr_ch tr = ch)); [done|].
      subst s. by apply Habs.
  - intros mm. simpl. rewrite lookup_delete.
    destruct (decide (tr_sub tr = s)); [done|apply Habs].
Qed.

(** An observation of the group [s] leaves the log of [ch] as it is. *)
Lemma run_body_isolated s ch m h to :
  absent s ch m → to_sub to = s →
  (run_body (RecvInput to) m h).1.2 = m ∧
  agree (run_body (RecvInput to) m h).2 h ch.
Proof.
  intros Habs Hs. simpl. unfold broadcast.
  destruct (subs m !! to_sub to) as [mm|] eqn:Hmm; [|done].
  destruct (send_each_grows (range_keys mm) (to_ob to) h ch) as (_ & Hlog & Hcl).
  destruct (send_each _ _ h) as [f h']. simpl in *. split; [done|]. split; [done|].
  apply Hlog. rewrite elem_of_range_keys. subst s. rewrite (Habs mm Hmm).
  by intros [? [=]].
Qed.

(** An arm of the loop ends the same way on two heaps that agree. *)
Lemma run_body_agree r m h1 h2 ch :
  agree h1 h2 ch →
  (run_body r m h1).1 = (run_body r m h2).1 ∧
  agree (run_body r m h1).2 (run_body r m h2).2 ch.
Proof.
  intros Hag. destruct r as [tr ok|to]; simpl.
  - by destruct ok.
  - unfold broadcast. destruct (subs m !! to_sub to) as [mm|]; [|done].
    destruct (send_each_agree (range_keys mm) (to_ob to) h1 h2 ch Hag) as [Hf Hag'].
    destruct (send_each _ _ h1), (send_each _ _ h2). simpl in *. by subst.
Qed.

Lemma run_body_grows r m h ch :
  received h ch `prefix_of` received (run_body r m h).2 ch.
Proof.
  destruct r as [tr ok|to]; simpl.
  - by destruct ok.
  - unfold broadcast. destruct (subs m !! to_sub to) as [mm|]; [|done].
    destruct (send_each_grows (range_keys mm) (to_ob to) h ch) as (Hpre & _).
    by destruct (send_each _ _ h).
Qed.

Lemma run_events_grows evs m h ch :
  received h ch `prefix_of` received (run_events evs m h).2 ch.
Proof.
  revert m h. induction evs as [|r evs IH]; intros m h; simpl; [done|].
  pose proof (run_body_grows r m h ch) as Hpre.
  destruct (run_body r m h) as [[f m'] h']. simpl in Hpre.
  destruct f; [etrans; [apply Hpre|apply IH]|done..].
Qed.

Lemma run_body_absent s ch r m h :
  absent s ch m →
  (∀ tr, r = RecvReg tr true →
     tr_sub tr = s → tr_regType tr = register → tr_ch tr ≠ ch) →
  absent s ch (run_body r m h).1.2.
Proof.
  intros Habs Hne. destruct r as [tr ok|to]; simpl.
  - destruct ok; simpl; [|done]. apply handleReg_absent; [done|]. by apply Hne.
  - by destruct (broadcast m to h).
Qed.

Lemma agree_trans h1 h2 h3 ch : agree h1 h2 ch → agree h2 h3 ch → agree h1 h3 ch.
Proof.
  intros [Hc1 Hl1] [Hc2 Hl2]. split; [|congruence]. intros l. by rewrite Hc1.
Qed.

(** The arms of the loop, run on the same messages with and without the
    observations of the group [s], from heaps that agree on [ch]. *)
Lemma isolation_events s ch evs m h1 h2 :
  agree h1 h2 ch →
  absent s ch m →
  (∀ tr, RecvReg tr true ∈ evs →
     tr_sub tr = s → tr_regType tr = register → tr_ch tr ≠ ch) →
  received (run_events evs m h1).2 ch
    `prefix_of` received (run_events (without_group s evs) m h2).2 ch ∧
  ((run_events evs m h1).1.1 = Next ∨ (run_events evs m h1).1.1 = Return →
   received (run_events evs m h1).2 ch =
     received (run_events (without_group s evs) m h2).2 ch).
Proof.
  revert m h1 h2. induction evs as [|r evs IH]; intros m h1 h2 Hag Habs Hevs.
  - simpl. destruct Hag as [_ ->]. done.
  - assert (∀ tr, RecvReg tr true ∈ evs →
       tr_sub tr = s → tr_regType tr = register → tr_ch tr ≠ ch) as Hevs'.
    { intros tr Hin. apply Hevs. by right. }
    assert (
      received (run_events (r :: evs) m h1).2 ch
        `prefix_of` received (run_events (r :: without_group s evs) m h2).2 ch ∧
      ((run_events (r :: evs) m h1).1.1 = Next ∨
       (run_events (r :: evs) m h1).1.1 = Return →
       received (run_events (r :: evs) m h1).2 ch =
         received (run_events (r :: without_group s evs) m h2).2 ch)) as Hkept.
    { cbn [run_events].
      destruct (run_body_agree r m h1 h2 ch Hag) as [Hsame Hag'].
      pose proof (run_body_absent s ch r m h1 Habs) as Habs'.
      destruct (run_body r m h1) as [[f m1] h1'], (run_body r m h2) as [[f' m2] h2'].
      simpl in *. injection Hsame as <- <-.
      destruct f; [|simpl; destruct Hag' as [_ ->]; done..].
      apply IH; [done| |done]. apply Habs'. intros tr ->. apply Hevs. left. }
    destruct r as [tr ok|to].
    + exact Hkept.
    + cbn [without_group]. destruct (decide (to_sub to = s)) as [Hs|Hs]; [|exact Hkept].
      clear Hkept.
      cbn [run_events].
      destruct (run_body_isolated s ch m h1 to Habs Hs) as [Hm Hag'].
      pose proof (run_body_return (RecvInput to) m h1) as Hret.
      destruct (run_body (RecvInput to) m h1) as [[f m1] h1']. simpl in *. subst m1.
      pose proof (agree_trans _ _ _ _ Hag' Hag) as Hag''.
      destruct f; [by apply IH|..].
      * destruct (proj1 Hret eq_refl) as [? [=]].
      * split; [|by intros [[=]|[=]]]. simpl. destruct Hag'' as [_ ->].
        apply run_events_grows.
      * split; [|by intros [[=]|[=]]]. simpl. destruct Hag'' as [_ ->].
        apply run_events_grows.
Qed.

(** The loop run on a schedule does to the subscriptions and to the
    endpoints what its arms do on the messages it receives. *)
Lemma handleReg_subs_eq m m0 tr :
  subs m0 = subs m → subs (handleReg m0 tr) = subs (handleReg m tr).
Proof.
  intros Heq. unfold handleReg, doReg, doUnreg. rewrite Heq.
  repeat case_match; simpl; by rewrite ?Heq.
Qed.

Lemma run_body_subs r m m0 h :
  subs m0 = subs m →
  (run_body r m0 h).1.1 = (run_body r m h).1.1 ∧
  subs (run_body r m0 h).1.2 = subs (run_body r m h).1.2 ∧
  (run_body r m0 h).2 = (run_body r m h).2.
Proof.
  intros Heq. destruct r as [tr ok|to]; simpl.
  - destruct ok; simpl; [|done]. split; [done|]. split; [|done]. by apply handleReg_subs_eq.
  - unfold broadcast. rewrite Heq. by destruct (subs m !! to_sub to) as [mm|];
      [destruct (send_each _ _ h)|].
Qed.

Lemma run_selected sched at_ m m0 h :
  subs m0 = subs m →
  (run zero sched at_ m h).1.1.1 = (run_events (selected zero sched at_ m h) m0 h).1.1 ∧
  subs (run zero sched at_ m h).1.2 = subs (run_events (selected zero sched at_ m h) m0 h).1.2 ∧
  (run zero sched at_ m h).2 = (run_events (selected zero sched at_ m h) m0 h).2.
Proof.
  revert at_ m m0 h. induction sched as [|p sched IH]; intros at_ m m0 h Heq.
  - done.
  - cbn [run selected]. unfold run_step.
    destruct (run_select zero p at_ m) as [[r m1]|] eqn:Hsel; [|by apply IH].
    apply run_select_subs in Hsel. cbn [run_events].
    destruct (run_body_subs r m1 m0 h) as (Hf & Hs & Hh); [congruence|].
    destruct (run_body r m1 h) as [[f m1'] h1], (run_body r m0 h) as [[f0 m0'] h0].
    simpl in *. subst f0 h0. destruct f; [by apply IH|done..].
Qed.

(** C7. Multiplex isolation.  Let [ch] be an endpoint that is not
    registered under the sub-handle [s], and that no request among the
    messages [evs] registers under [s]; it may be registered under any
    other sub-handle.  Then an observation submitted through [s] adds
    nothing to what [ch] gets; and when the loop receives the messages
    [evs], whatever their interleaving of requests and observations, [ch]
    gets what it would get if nothing had been submitted through [s]: a
    prefix of it when the loop hangs or panics on an endpoint, all of it
    otherwise.  The loop run on a schedule that makes it receive [evs] does
    to the endpoints what its arms do on [evs]. *)
Theorem groups_isolated s ch evs m h :
  absent s ch m →
  (∀ tr, RecvReg tr true ∈ evs →
     tr_sub tr = s → tr_regType tr = register → tr_ch tr ≠ ch) →
  (∀ to, to_sub to = s →
     received (run_body (RecvInput to) m h).2 ch = received h ch) ∧
  received (run_events evs m h).2 ch `prefix_of`
    received (run_events (without_group s evs) m h).2 ch ∧
  ((run_events evs m h).1.1 = Next ∨ (run_events evs m h).1.1 = Return →
   received (run_events evs m h).2 ch =
     received (run_events (without_group s evs) m h).2 ch) ∧
  (∀ sched at_, selected zero sched at_ m h = evs →
     (run zero sched at_ m h).1.1.1 = (run_events evs m h).1.1 ∧
     (run zero sched at_ m h).2 = (run_events evs m h).2).
Proof.
  intros Habs Hevs. split; [|split; [|split]].
  - intros to Hs. by destruct (run_body_isolated s ch m h to Habs Hs) as [_ [_ ->]].
  - by apply isolation_events.
  - by apply isolation_events.
  - intros sched at_ <-.
    by destruct (run_selected sched at_ m m h eq_refl) as (-> & _ & ->).
Qed.

End props.

(** The theorems at an observer of [int] with two sub-handles, at the
    addresses 1 and 2, and the endpoint at the address 5 registered under
    the first. *)

Lemma entries_never_empty_witness :
  let m : MuxObserver nat :=
    mkMuxObserver {[Some 1%positive := {[Some 5%positive := true]}]}
      (Chan [] 1 false) (Chan [] 1 false) in
  (∀ s mm, subs m !! s = Some mm → mm ≠ ∅) ∧
  (∀ tr s mm, subs (handleReg m tr) !! s = Some mm → mm ≠ ∅) ∧
  (∀ s ch mm, subs m !! s = Some mm →
     (∀ c, is_Some (mm !! c) → c = ch) →
     subs (handleReg m (mkRegReq s ch unregister)) !! s = None) ∧
  (∀ s ch mm c, subs m !! s = Some mm →
     is_Some (mm !! c) → c ≠ ch →
     subs (handleReg m (mkRegReq s ch unregister)) !! s = Some (delete ch mm)) ∧
  (∀ s ch, subs (handleReg m (mkRegReq s ch purge)) = delete s (subs m)).
Proof.
  intros m. apply (entries_never_empty 0 m).
  apply (mux_reach_step 0 (mkMuxObserver ∅ (Chan [] 1 false) (Chan [] 1 false))).
  - apply (mux_reach_new 0 1 1). reflexivity.
  - apply (step_select 0 _
             (PickReg (Some (mkRegReq (Some 1%positive) (Some 5%positive) register)))
             AtCheck ∅ Next AtCheck m ∅).
    reflexivity.
Defined.


Lemma groups_isolated_witness :
  let m : MuxObserver nat :=
    mkMuxObserver {[Some 1%positive := {[Some 5%positive := true]}]}
      (Chan [] 1 false) (Chan [] 2 false) in
  let s : subref := Some 2%positive in
  let ch : chanref := Some 5%positive in
  let evs : list (select_outcome nat) :=
    [RecvInput (mkObservation (Some 2%positive) 8);
     RecvReg (mkRegReq (Some 2%positive) (Some 6%positive) register) true;
     RecvInput (mkObservation (Some 1%positive) 7);
     RecvInput (mkObservation (Some 2%positive) 9)] in
  let h : heap nat := ∅ in
  (∀ to, to_sub to = s →
     received (run_body (RecvInput to) m h).2 ch = received h ch) ∧
  received (run_events evs m h).2 ch `prefix_of`
    received (run_events (without_group s evs) m h).2 ch ∧
  ((run_events evs m h).1.1 = Next ∨ (run_events evs m h).1.1 = Return →
   received (run_events evs m h).2 ch =
     received (run_events (without_group s evs) m h).2 ch) ∧
  (∀ sched at_, selected 0 sched at_ m h = evs →
     (run 0 sched at_ m h).1.1.1 = (run_events evs m h).1.1 ∧
     (run 0 sched at_ m h).2 = (run_events evs m h).2).
Proof.
  intros m s ch evs h. apply (groups_isolated 0 s ch evs m h).
  - intros mm Hmm. vm_compute in Hmm. discriminate Hmm.
  - intros tr Hin _ _ Hch. unfold evs in Hin.
    apply elem_of_cons in Hin as [Heq|Hin]; [discriminate Heq|].
    apply elem_of_cons in Hin as [Heq|Hin];
      [injection Heq as ->; discriminate Hch|].
    apply elem_of_cons in Hin as [Heq|Hin]; [discriminate Heq|].
    apply elem_of_cons in Hin as [Heq|Hin]; [discriminate Heq|].
    by apply not_elem_of_nil in Hin.
Defined.

End MuxProps.

(** ** Properties of both objects *)
Module PackageProps.
Section props.
Context {T : Type} (zero : T) `{RangeOrder}.
Implicit Types (b : Broadcaster.broadcaster T) (m : Mux.MuxObserver T).
Implicit Types (h : heap T) (ch : chanref) (s : subref).

(** C3. Submission on a [nil] instance.  [Submit] and [TrySubmit] on a
    [nil] broadcaster, and [TrySubmit] on a [nil] sub-handle, test the
    receiver first: they return, the last two with [false], and change
    nothing.  [Submit] on a [nil] sub-handle has no such test, and panics
    on [s.mo]. *)
Theorem nil_submission (parked : bool) (v : T) m :
  Broadcaster.Submit (T:=T) None parked v = Done None ∧
  Broadcaster.TrySubmit (T:=T) None parked v = Done (false, None) ∧
  Mux.subObserver_TrySubmit None m parked v = Done (false, m) ∧
  Mux.subObserver_Submit None m parked v = Panics.
Proof. done. Qed.

(** Sub-handles made one after the other are different keys. *)
Lemma Sub_distinct (next : positive) :
  (Mux.Sub next).1 ≠ (Mux.Sub (Mux.Sub next).2).1.
Proof. simpl. intros [= Heq]. lia. Qed.


(** Nothing opens a channel again: the registration channel of a closed
    broadcaster, or observer, stays closed whatever is done next. *)
Lemma broadcaster_stays_closed b b' :
  rtc (Broadcaster.step zero) b b' →
  closed (Broadcaster.reg b) = true → closed (Broadcaster.reg b') = true.
Proof.
  induction 1 as [|b1 b2 b3 Hstep _ IH]; [done|]. intros Hcl. apply IH. clear IH.
  destruct Hstep as [b0 parked ch b1 Hop|b0 parked ch b1 Hop|b0 e b1 Hop
         |b0 parked v b1 Hop|b0 parked v ok b1 Hop|b0 p h f b1 h' Hop]; simpl in Hop.
  - unfold send in Hop. by rewrite Hcl in Hop.
  - apply outcome_bind_done in Hop as (c & _ & [= <-]). done.
  - unfold close in Hop. by rewrite Hcl in Hop.
  - apply outcome_bind_done in Hop as (c & _ & [= <-]). done.
  - apply outcome_bind_done in Hop as ([ok' c] & _ & [= _ <-]). done.
  - unfold Broadcaster.run_iter in Hop.
    destruct (Broadcaster.run_select zero p b0) as [[r b2]|] eqn:Hsel;
      [|by injection Hop as _ <- _].
    assert (closed (Broadcaster.reg b2) = true) as Hcl2.
    { destruct p as [o|o|o]; simpl in Hsel.
      - destruct (recv (Broadcaster.input b0) o) as [[[x|] c]|]; [| |done];
          by injection Hsel as _ <-.
      - destruct (recv (Broadcaster.reg b0) o) as [[[x|] c]|] eqn:Hr; [| |done];
          injection Hsel as _ <-; apply recv_some in Hr as (_ & Hc & _);
          simpl; congruence.
      - destruct (recv (Broadcaster.unreg b0) o) as [[[x|] c]|]; [| |done];
          by injection Hsel as _ <-. }
    destruct r as [v|c ok|c]; simpl in Hop.
    + destruct (Broadcaster.broadcast b2 v h). by injection Hop as _ <- _.
    + destruct ok; by injection Hop as _ <- _.
    + by injection Hop as _ <- _.
Qed.

Lemma observer_stays_closed m m' :
  rtc (Mux.step zero) m m' →
  closed (Mux.reg m) = true → closed (Mux.reg m') = true.
Proof.
  induction 1 as [|m1 m2 m3 Hstep _ IH]; [done|]. intros Hcl. apply IH. clear IH.
  destruct Hstep as [m0 e m1 Hop|m0 s parked ch m1 Hop|m0 s parked ch m1 Hop
         |m0 s parked e m1 Hop|m0 s parked ob m1 Hop|m0 s parked ob ok m1 Hop
         |m0 p at_ h f at' m1 h' Hop].
  - simpl in Hop. unfold close in Hop. by rewrite Hcl in Hop.
  - destruct s; simpl in Hop; [|done]. unfold send in Hop. by rewrite Hcl in Hop.
  - destruct s; simpl in Hop; [|done]. unfold send in Hop. by rewrite Hcl in Hop.
  - destruct s; simpl in Hop; [|done]. unfold send in Hop. by rewrite Hcl in Hop.
  - destruct s; simpl in Hop; [|done].
    apply outcome_bind_done in Hop as (c & _ & [= <-]). done.
  - destruct s; simpl in Hop; [|by injection Hop as _ <-].
    apply outcome_bind_done in Hop as ([ok' c] & _ & [= _ <-]). done.
  - unfold Mux.run_step in Hop.
    destruct (Mux.run_select zero p at_ m0) as [[r m2]|] eqn:Hsel;
      [|by injection Hop as _ _ <- _].
    assert (closed (Mux.reg m2) = true) as Hcl2.
    { assert (∀ o, Mux.recv_reg o m0 = Some (r, m2) → closed (Mux.reg m2) = true) as Hreg.
      { intros o. unfold Mux.recv_reg.
        destruct (recv (Mux.reg m0) o) as [[[x|] c]|] eqn:Hr; [| |done];
          intros [= _ <-]; apply recv_some in Hr as (_ & Hc & _);
          simpl; congruence. }
      assert (∀ o, Mux.recv_input zero o m0 = Some (r, m2) → closed (Mux.reg m2) = true)
        as Hin.
      { intros o. unfold Mux.recv_input.
        destruct (recv (Mux.input m0) o) as [[[x|] c]|]; [| |done]; by intros [= _ <-]. }
      destruct at_; simpl in Hsel; [by eapply Hreg|].
      destruct p; [by eapply Hreg|by eapply Hin]. }
    destruct r as [tr ok|to]; simpl in Hop.
    + destruct ok; injection Hop as _ _ <- _; [|done].
      by rewrite (proj1 (MuxProps.handleReg_chans _ _)).
    + destruct (Mux.broadcast m2 to h). by injection Hop as _ _ <- _.
Qed.

(** C10. Closing twice.  A [Close] that returns has returned [nil].
    Whatever is done with the broadcaster, or with the observer, after
    that, the next [Close] on it panics: in [close] on the registration
    channel, which is closed already. *)
Theorem close_twice_panics b e b' b'' m e2 m' m'' :
  Broadcaster.Close (Some b) = Done (e, Some b') →
  rtc (Broadcaster.step zero) b' b'' →
  Mux.Close (Some m) = Done (e2, Some m') →
  rtc (Mux.step zero) m' m'' →
  (e = None ∧ Broadcaster.Close (Some b'') = Panics) ∧
  (e2 = None ∧ Mux.Close (Some m'') = Panics).
Proof.
  intros Hb Hbs Hm Hms.
  assert (e = None ∧ closed (Broadcaster.reg b') = true) as [-> Hcb].
  { simpl in Hb. unfold close in Hb.
    destruct (closed (Broadcaster.reg b)); [done|]. simpl in Hb.
    destruct (closed (Broadcaster.unreg b)); [done|]. simpl in Hb.
    by injection Hb as <- <-. }
  assert (e2 = None ∧ closed (Mux.reg m') = true) as [-> Hcm].
  { simpl in Hm. unfold close in Hm.
    destruct (closed (Mux.reg m)); [done|]. simpl in Hm. by injection Hm as <- <-. }
  apply (broadcaster_stays_closed _ _ Hbs) in Hcb.
  apply (observer_stays_closed _ _ Hms) in Hcm.
  simpl. unfold close. by rewrite Hcb, Hcm.
Qed.

End props.


Lemma close_twice_panics_witness :
  let b : Broadcaster.broadcaster nat :=
    Broadcaster.mkBroadcaster (Chan [] 1 false) make_unbuffered make_unbuffered ∅ in
  let b' : Broadcaster.broadcaster nat :=
    Broadcaster.mkBroadcaster (Chan [] 1 false) (Chan [] 0 true) (Chan [] 0 true) ∅ in
  let m : Mux.MuxObserver nat := Mux.mkMuxObserver ∅ (Chan [] 1 false) (Chan [] 1 false) in
  let m' : Mux.MuxObserver nat :=
    Mux.mkMuxObserver ∅ (Chan [] 1 true) (Chan [] 1 false) in
  (None = None :> error ∧ Broadcaster.Close (Some b') = Panics) ∧
  (None = None :> error ∧ Mux.Close (Some m') = Panics).
Proof.
  intros b b' m m'. apply (close_twice_panics 0 b None b' b' m None m' m'); reflexivity.
Defined.

End PackageProps.

(** ** Sessions *)
Module Sessions.
Import Broadcaster.

(** A broadcaster of [int] with an input queue of capacity 1 and the
    endpoint at the address 5 registered.  While the loop does not run, the
    first [TrySubmit] fills the queue and the second is refused; once the
    loop has delivered the first value the queue has room again, and the
    endpoint gets both values in order. *)
Example try_submit_session :
  let b1 : broadcaster nat :=
    mkBroadcaster (Chan [] 1 false) make_unbuffered make_unbuffered
      {[Some 5%positive := true]} in
  ∃ b2 b3 h3 b4 b5 h5,
    TrySubmit (Some b1) false 5 = Done (true, Some b2) ∧
    TrySubmit (Some b2) false 6 = Done (false, Some b2) ∧
    run_iter 0 (PickInput None) b2 ∅ = (Next, b3, h3) ∧
    TrySubmit (Some b3) false 6 = Done (true, Some b4) ∧
    run_iter 0 (PickInput None) b4 h3 = (Next, b5, h5) ∧
    received h5 (Some 5%positive) = [5; 6] ∧
    queue (input b5) = [].
Proof. intros b1. repeat eexists. Qed.

(** The loop registers an endpoint that a sender hands to it, and forgets
    it again on an unregistration. *)
Example register_unregister_session :
  let b0 := mkBroadcaster (Chan [7; 8] 2 false) make_unbuffered make_unbuffered ∅ in
  let sched : list (pick nat) :=
    [PickReg (Some (Some 5%positive)); PickInput None;
     PickUnreg (Some (Some 5%positive)); PickInput None] in
  received (run 0 sched b0 ∅).2 (Some 5%positive) = [7] ∧
  dequeued 0 sched b0 ∅ = [7; 8] ∧
  outputs (run 0 sched b0 ∅).1.2 = ∅.
Proof. split; [|split]; reflexivity. Qed.

(** A [nil] endpoint parks the loop for ever, and a closed endpoint makes
    it panic. *)
Example nil_endpoint_hangs :
  let b := mkBroadcaster (Chan [7] 1 false) make_unbuffered make_unbuffered
             {[None := true]} in
  (run_iter 0 (PickInput None) b (∅ : heap nat)).1.1 = Hang.
Proof. reflexivity. Qed.

Example closed_endpoint_panics :
  let b := mkBroadcaster (Chan [7] 1 false) make_unbuffered make_unbuffered
             {[Some 5%positive := true]} in
  let h : heap nat := {[5%positive := Endpoints.Endpoint [] true]} in
  (run_iter 0 (PickInput None) b h).1.1 = Crash.
Proof. reflexivity. Qed.

(** In the blocking [select] of the observer both cases are open: with a
    request and an observation waiting, the observation is processed when
    its case is picked. *)
Example wait_takes_either :
  let m : Mux.MuxObserver nat :=
    Mux.mkMuxObserver {[Some 1%positive := {[Some 5%positive := true]}]}
      (Chan [Mux.mkRegReq (Some 1%positive) (Some 5%positive) Mux.unregister] 1 false)
      (Chan [Mux.mkObservation (Some 1%positive) 7] 1 false) in
  let h : heap nat := ∅ in
  received (Mux.run_step 0 (Mux.PickInput None) Mux.AtWait m h).2 (Some 5%positive) = [7] ∧
  received (Mux.run_step 0 (Mux.PickInput None) Mux.AtCheck m h).2 (Some 5%positive) = [].
Proof. split; reflexivity. Qed.

End Sessions.

(** ** More on the broadcaster *)
Module BroadcasterExtra.
Import Broadcaster.
Section extra.
Context {T : Type} (zero : T) `{RangeOrder}.
Implicit Types (b : broadcaster T) (h : heap T) (ch c : chanref) (m : T).

(** *** What an endpoint gets between its registration and its
    unregistration *)




(** X2. The effect of an unregistration.  The loop that handles the
    unregistration of [ch] takes [ch] out of the output set.  From a state
    in which [ch] is not in the output set, and as long as the loop
    receives no registration of [ch], [ch] gets nothing: not the values
    that were in the input queue already, and whatever happens to the other
    endpoints. *)
Theorem unregistered_gets_nothing sched b h ch :
  outputs b !! ch = None →
  RecvReg ch true ∉ selected zero sched b h →
  received (run zero sched b h).2 ch = received h ch ∧
  ∀ b0 h0, outputs (run_body (RecvUnreg ch) b0 h0).1.2 !! ch = None ∧
           input (run_body (RecvUnreg ch) b0 h0).1.2 = input b0.
Proof.
  intros Hout Hreg. split; [|intros b0 h0; simpl; by rewrite lookup_delete_eq].
  revert b h Hout Hreg. induction sched as [|p sched IH]; intros b h Hout Hreg; [done|].
  cbn [run selected] in *. unfold run_iter.
  destruct (run_select zero p b) as [[r b1]|] eqn:Hsel; [|by apply IH].
  apply BroadcasterProps.run_select_outputs in Hsel as Hout1.
  apply not_elem_of_cons in Hreg as [Hhead Hreg].
  destruct r as [m|c ok|c]; cbn [run_body] in *.
  - unfold broadcast in *. rewrite Hout1 in *.
    destruct (send_each_grows (range_keys (outputs b)) m h ch) as (_ & Hsame & _).
    destruct (send_each (range_keys (outputs b)) m h) as [f h1]. simpl in Hsame.
    assert (received h1 ch = received h ch) as Hlog.
    { apply Hsame. rewrite elem_of_range_keys, Hout. by intros [? [=]]. }
    destruct f; [|done..]. rewrite <- Hlog. apply IH; [by rewrite Hout1|done].
  - destruct ok; [|done]. apply IH; [|done]. simpl.
    rewrite lookup_insert_ne; [by rewrite Hout1|]. intros ->. by apply Hhead.
  - apply IH; [|done]. simpl. rewrite lookup_delete.
    destruct (decide (c = ch)); [done|by rewrite Hout1].
Qed.

(** *** The methods *)



(** X4. Register and Unregister wait for the loop.  On a broadcaster
    that is not closed, [Register] and [Unregister] park the caller until
    the loop is receiving, and return as soon as the loop has taken the
    endpoint, with the object as it was: the endpoint is added or removed
    by the loop.  On a closed broadcaster both panic. *)
Theorem register_waits_for_loop n b ch :
  reachable zero n b →
  (closed (reg b) = false →
     Register (Some b) false ch = Blocks ∧ Register (Some b) true ch = Done (Some b) ∧
     Unregister (Some b) false ch = Blocks ∧ Unregister (Some b) true ch = Done (Some b)) ∧
  (closed (reg b) = true →
     ∀ parked, Register (Some b) parked ch = Panics ∧
               Unregister (Some b) parked ch = Panics).
Proof.
  intros [_ _ _ Hrc Huc Hrq Huq Hboth _]%BroadcasterProps.reachable_invariant.
  simpl. unfold send. rewrite Hboth, Hrq, Huq, Hrc, Huc. split; intros ->; simpl.
  - by destruct b.
  - done.
Qed.

(** X5. Submit.  On a broadcaster, closed or not, [Submit] never panics.
    It hands the value to the loop when the loop is receiving; otherwise it
    puts the value at the tail of the input queue when the queue has room,
    and parks the caller when the queue is full.  It changes nothing but
    the input queue. *)
Theorem submit_outcomes n b m :
  reachable zero n b →
  Submit (Some b) true m = Done (Some b) ∧
  (length (queue (input b)) < Z.to_nat n →
     Submit (Some b) false m = Done (Some (set_input (enqueue (input b) m) b))) ∧
  (length (queue (input b)) = Z.to_nat n → Submit (Some b) false m = Blocks) ∧
  length (queue (input b)) ≤ Z.to_nat n ∧
  (∀ parked, Submit (Some b) parked m ≠ Panics).
Proof.
  intros [Hopen Hcap Hlen _ _ _ _ _ _]%BroadcasterProps.reachable_invariant.
  simpl. unfold send. rewrite Hopen, <- Hcap. simpl.
  split; [by destruct b|]. split; [|split; [|split; [done|]]].
  - intros Hlt%Nat.ltb_lt. by rewrite Hlt.
  - intros ->. by rewrite Nat.ltb_irrefl.
  - intros [|]; simpl; [done|]. by destruct (_ <? _).
Qed.

(** X6. The loop of a closed broadcaster.  After [Close], the [unreg]
    case of the [select] is always ready: it receives [nil] and takes
    nothing but the [nil] key out of the output set.  A value in the input
    queue is still fanned out when the [input] case is picked.  The loop
    returns when the [reg] case is picked, and over a schedule that never
    picks it the loop does not return. *)
Theorem closed_broadcaster_loop n b h :
  reachable zero n b →
  closed (reg b) = true →
  (∀ o, run_iter zero (PickReg o) b h = (Return, b, h)) ∧
  (∀ o, run_iter zero (PickUnreg o) b h =
          (Next, set_outputs (delete None (outputs b)) b, h)) ∧
  (∀ o m q, queue (input b) = m :: q →
     run_iter zero (PickInput o) b h =
       let b1 := set_input (Chan q (cap (input b)) (closed (input b))) b in
       let '(f, h') := broadcast b1 m h in (f, b1, h')) ∧
  (∀ sched, (∀ o, PickReg o ∉ sched) → (run zero sched b h).1.1 ≠ Return).
Proof.
  intros Hreach Hcl.
  pose proof (BroadcasterProps.reachable_invariant zero n b Hreach)
    as [_ _ _ _ _ Hrq Huq Hboth _].
  split; [|split; [|split]].
  - intros o. unfold run_iter. simpl. unfold recv. rewrite Hrq, Hcl. simpl. by destruct b.
  - intros o. unfold run_iter. simpl. unfold recv. rewrite Huq, Hboth, Hcl. simpl.
    by destruct b.
  - intros o m q Hq. unfold run_iter. simpl. unfold recv. rewrite Hq. simpl.
    by destruct (broadcast _ m h).
  - intros sched. clear Hreach Hcl Hrq Huq Hboth. revert b h.
    induction sched as [|p sched IH]; intros b h Hpick; [done|].
    cbn [run]. destruct (run_iter zero p b h) as [[f b'] h'] eqn:Hit.
    destruct f; simpl; [|..|done|done].
    + apply IH. intros o Hin. apply (Hpick o). by right.
    + apply BroadcasterProps.run_iter_return in Hit as [[o ->] _].
      destruct (Hpick o). left.
Qed.

End extra.

(** The theorems at a broadcaster of [int]. *)


Lemma unregistered_gets_nothing_witness :
  let b : broadcaster nat :=
    mkBroadcaster (Chan [7; 8] 2 false) make_unbuffered make_unbuffered
      {[Some 5%positive := true]} in
  let b' := (run_body (RecvUnreg (Some 5%positive)) b ∅).1.2 in
  let sched : list (pick nat) := [PickInput None; PickInput None] in
  received (run 0 sched b' (∅ : heap nat)).2 (Some 5%positive) = [] ∧
  dequeued 0 sched b' (∅ : heap nat) = [7; 8].
Proof.
  intros b b' sched.
  destruct (unregistered_gets_nothing 0 sched b' ∅ (Some 5%positive)) as [Hlog _].
  - reflexivity.
  - intros Hin. vm_compute in Hin.
    repeat (apply elem_of_cons in Hin as [Heq|Hin]; [discriminate Heq|]).
    by apply not_elem_of_nil in Hin.
  - split; [exact Hlog|reflexivity].
Defined.

Lemma register_waits_for_loop_witness :
  let b : broadcaster nat :=
    mkBroadcaster (Chan [] 1 false) make_unbuffered make_unbuffered ∅ in
  Register (Some b) false (Some 5%positive) = Blocks ∧
  Register (Some b) true (Some 5%positive) = Done (Some b).
Proof.
  intros b.
  destruct (register_waits_for_loop 0 1 b (Some 5%positive)) as [Hopen _].
  - apply BroadcasterProps.reach_new. reflexivity.
  - destruct Hopen as (Hb & Hd & _); [reflexivity|]. by split.
Defined.

Lemma submit_outcomes_witness :
  let b : broadcaster nat :=
    mkBroadcaster (Chan [] 1 false) make_unbuffered make_unbuffered ∅ in
  Submit (Some b) false 7 = Done (Some (set_input (Chan [7] 1 false) b)).
Proof.
  intros b.
  destruct (submit_outcomes 0 1 b 7) as (_ & Hroom & _).
  - apply BroadcasterProps.reach_new. reflexivity.
  - apply Hroom. simpl. lia.
Defined.

Lemma closed_broadcaster_loop_witness :
  let b : broadcaster nat :=
    mkBroadcaster (Chan [7] 1 false) (Chan [] 0 true) (Chan [] 0 true) ∅ in
  run_iter 0 (PickUnreg None) b (∅ : heap nat) = (Next, b, ∅) ∧
  run_iter 0 (PickReg None) b (∅ : heap nat) = (Return, b, ∅).
Proof.
  intros b.
  destruct (closed_broadcaster_loop 0 1 b ∅) as (Hreg & Hunreg & _).
  - apply (BroadcasterProps.reach_step 0 1
             (mkBroadcaster (Chan [7] 1 false) make_unbuffered make_unbuffered ∅)).
    + apply (BroadcasterProps.reach_step 0 1
               (mkBroadcaster (Chan [] 1 false) make_unbuffered make_unbuffered ∅)).
      * apply BroadcasterProps.reach_new. reflexivity.
      * apply (step_trysubmit 0 _ false 7 true). reflexivity.
    + apply (step_close 0 _ None). reflexivity.
  - reflexivity.
  - split; [rewrite Hunreg; reflexivity|apply Hreg].
Defined.

End BroadcasterExtra.

(** ** More on the multiplexed observer *)
Module MuxExtra.
Import Mux.
Section extra.
Context {T : Type} (zero : T) `{RangeOrder}.
Implicit Types (m : MuxObserver T) (h : heap T) (ch c : chanref) (s : subref).
Implicit Types (tr : taggedRegReq) (to : taggedObservation T) (a : positive).

(** *** The observation queue *)

(** What holds of the observation queue of an observer made with the
    queue length [qlen]: it is never closed, and holds at most [qlen]
    observations. *)
Lemma input_invariant qlen reglen m0 m :
  NewMuxObserver qlen reglen = Done m0 →
  rtc (step zero) m0 m →
  closed (input m) = false ∧ cap (input m) = Z.to_nat qlen ∧
  length (queue (input m)) ≤ cap (input m).
Proof.
  intros Hnew Hsteps.
  assert (closed (input m0) = false ∧ cap (input m0) = Z.to_nat qlen ∧
          length (queue (input m0)) ≤ cap (input m0)) as Hinv.
  { unfold NewMuxObserver, make in Hnew.
    destruct (reglen <? 0)%Z; [done|]. destruct (qlen <? 0)%Z; [done|].
    simpl in Hnew. injection Hnew as <-. simpl. auto with lia. }
  clear Hnew. induction Hsteps as [|m1 m2 m3 Hstep _ IH]; [done|]. apply IH. clear IH.
  destruct Hinv as (Hopen & Hcap & Hlen).
  destruct Hstep as [m1 e m2 Hop|m1 s parked ch m2 Hop|m1 s parked ch m2 Hop
         |m1 s parked e m2 Hop|m1 s parked ob m2 Hop|m1 s parked ob ok m2 Hop
         |m1 p at_ h f at' m2 h' Hop].
  - simpl in Hop. apply outcome_bind_done in Hop as (r & _ & [= _ <-]). done.
  - destruct s; simpl in Hop; [|done].
    apply outcome_bind_done in Hop as (r & _ & [= <-]). done.
  - destruct s; simpl in Hop; [|done].
    apply outcome_bind_done in Hop as (r & _ & [= <-]). done.
  - destruct s; simpl in Hop; [|done].
    apply outcome_bind_done in Hop as (r & _ & [= _ <-]). done.
  - destruct s; simpl in Hop; [|done].
    apply outcome_bind_done in Hop as (c0 & Hs & [= <-]).
    apply send_done in Hs as (_ & [->|[Hlt ->]]); simpl; [done|].
    rewrite length_app. simpl. auto with lia.
  - destruct s; simpl in Hop; [|by injection Hop as _ <-].
    apply outcome_bind_done in Hop as ([ok' c0] & Hs & [= _ <-]).
    unfold try_send in Hs. destruct (send (input m1) parked _) as [c'| |] eqn:Hsend; [| |done].
    + injection Hs as _ <-. apply send_done in Hsend as (_ & [->|[Hlt ->]]); simpl; [done|].
      rewrite length_app. simpl. auto with lia.
    + by injection Hs as _ <-.
  - unfold run_step in Hop.
    destruct (run_select zero p at_ m1) as [[r m1']|] eqn:Hsel;
      [|by injection Hop as _ _ <- _].
    assert (closed (input m1') = false ∧ cap (input m1') = Z.to_nat qlen ∧
            length (queue (input m1')) ≤ cap (input m1')) as Hinv'.
    { assert (∀ o, recv_reg o m1 = Some (r, m1') → input m1' = input m1) as Hreg.
      { intros o. unfold recv_reg.
        destruct (recv (reg m1) o) as [[[x|] c0]|]; [| |done]; by intros [= _ <-]. }
      assert (∀ o, recv_input zero o m1 = Some (r, m1') →
                closed (input m1') = false ∧ cap (input m1') = Z.to_nat qlen ∧
                length (queue (input m1')) ≤ cap (input m1')) as Hin.
      { intros o. unfold recv_input.
        destruct (recv (input m1) o) as [[[x|] c0]|] eqn:Hr; [| |done];
          intros [= _ <-]; apply recv_some in Hr as (Hc & Hcl & Hl); simpl;
          rewrite Hc, Hcl; auto with lia. }
      destruct at_; simpl in Hsel; [rewrite (Hreg _ Hsel); auto|].
      destruct p; [rewrite (Hreg _ Hsel); auto|by eapply Hin]. }
    destruct r as [tr ok|to]; simpl in Hop.
    + destruct ok; injection Hop as _ _ <- _; [|done].
      by rewrite (proj2 (MuxProps.handleReg_chans _ _)).
    + destruct (broadcast m1' to h). by injection Hop as _ _ <- _.
Qed.

(** X7. TrySubmit on a sub-handle.  For an observer made with the
    observation queue length [qlen], in any state it goes through and
    while the loop is not receiving: [TrySubmit] on a sub-handle returns
    [false] and changes nothing when the queue holds [qlen] observations;
    when it holds fewer it returns [true], and the value, tagged with the
    sub-handle itself, is at the tail of the queue. *)
Theorem sub_try_submit_boundary qlen reglen m0 m a (v : T) :
  NewMuxObserver qlen reglen = Done m0 →
  rtc (step zero) m0 m →
  length (queue (input m)) ≤ Z.to_nat qlen ∧
  (length (queue (input m)) = Z.to_nat qlen →
     subObserver_TrySubmit (Some a) m false v = Done (false, m)) ∧
  (length (queue (input m)) < Z.to_nat qlen →
     subObserver_TrySubmit (Some a) m false v =
       Done (true, set_input (enqueue (input m) (mkObservation (Some a) v)) m)).
Proof.
  intros Hnew Hsteps.
  destruct (input_invariant _ _ _ _ Hnew Hsteps) as (Hopen & Hcap & Hlen).
  rewrite <- Hcap. split; [done|].
  simpl. unfold try_send, send. rewrite Hopen. simpl. split.
  - intros ->. rewrite Nat.ltb_irrefl. simpl. by destruct m.
  - intros Hlt%Nat.ltb_lt. by rewrite Hlt.
Qed.

(** *** Requests *)

Lemma foldl_handleReg_subs trs m m1 :
  subs m1 = subs m → subs (foldl handleReg m1 trs) = subs (foldl handleReg m trs).
Proof.
  revert m m1. induction trs as [|tr trs IH]; intros m m1 Heq; [done|].
  simpl. apply IH. by apply MuxProps.handleReg_subs_eq.
Qed.

(** From the outer [select], the loop takes the requests that wait in
    the registration queue one after the other. *)
Lemma run_drain trs m h sched1 sched2 q :
  queue (reg m) = trs ++ q →
  length sched1 = length trs →
  ∃ m', run zero (sched1 ++ sched2) AtCheck m h = run zero sched2 AtCheck m' h ∧
    subs m' = subs (foldl handleReg m trs) ∧
    reg m' = Chan q (cap (reg m)) (closed (reg m)) ∧
    input m' = input m.
Proof.
  revert m sched1. induction trs as [|tr trs IH]; intros m sched1 Hq Hlen.
  - destruct sched1; [|done]. exists m. simpl in *. rewrite <- Hq. by destruct m as [? []].
  - destruct sched1 as [|p sched1]; [done|]. injection Hlen as Hlen.
    cbn [app run]. unfold run_step, run_select, recv_reg, recv. rewrite Hq. simpl.
    set (m1 := handleReg _ tr).
    destruct (MuxProps.handleReg_chans
                (set_reg (Chan (trs ++ q) (cap (reg m)) (closed (reg m))) m) tr)
      as [Hreg Hin].
    destruct (IH m1 sched1) as (m' & Hrun & Hsubs & Hreg' & Hin'); [|done|].
    { unfold m1. by rewrite Hreg. }
    exists m'. split; [done|]. split; [|split].
    + rewrite Hsubs. apply foldl_handleReg_subs. by apply MuxProps.handleReg_subs_eq.
    + rewrite Hreg'. unfold m1. by rewrite Hreg.
    + rewrite Hin'. unfold m1. by rewrite Hin.
Qed.

(** X8. Requests go first.  When requests wait in the registration
    queue and the loop is at its outer [select], its next [select]s, one
    per request, apply the requests in the order of the queue, whatever
    the picks and whatever waits in the observation queue: no observation
    is taken and no endpoint gets anything in between. *)
Theorem requests_go_first trs q m h sched :
  queue (reg m) = trs ++ q →
  length sched = length trs →
  ∃ m', run zero sched AtCheck m h = (Next, AtCheck, m', h) ∧
    subs m' = subs (foldl handleReg m trs) ∧
    queue (reg m') = q ∧
    input m' = input m.
Proof.
  intros Hq Hlen.
  destruct (run_drain trs m h sched [] q Hq Hlen) as (m' & Hrun & Hsubs & Hreg & Hin).
  rewrite app_nil_r in Hrun. exists m'. rewrite Hrun, Hreg. done.
Qed.


Lemma handleReg_register m s ch :
  handleReg m (mkRegReq s ch register) = doReg m (mkRegReq s ch register).
Proof. reflexivity. Qed.

Lemma handleReg_unregister m s ch :
  handleReg m (mkRegReq s ch unregister) = doUnreg m (mkRegReq s ch unregister).
Proof. reflexivity. Qed.

Lemma handleReg_purge m s ch :
  handleReg m (mkRegReq s ch purge) = set_subs (delete s (subs m)) m.
Proof. reflexivity. Qed.

Lemma doReg_subs' m tr :
  subs (doReg m tr) =
    <[tr_sub tr := <[tr_ch tr := true]> (default ∅ (subs m !! tr_sub tr))]> (subs m).
Proof. apply MuxProps.doReg_subs. Qed.

(** X10. Purge.  A sub-handle [Close]s and then [Register]s an
    endpoint, on an observer whose registration queue is open, empty and
    has room for two requests; the loop then runs two [select]s.  After
    them the group of the sub-handle holds that endpoint and nothing else:
    the endpoints of the group from before the purge are gone.  The other
    groups, the observation queue and the endpoints are as before. *)
Theorem purge_forgets m h a ch p1 p2 :
  closed (reg m) = false →
  queue (reg m) = [] →
  2 ≤ cap (reg m) →
  ∃ m1 m2 m3,
    subObserver_Close (Some a) m false = Done (None, m1) ∧
    subObserver_Register (Some a) m1 false ch = Done m2 ∧
    run zero [p1; p2] AtCheck m2 h = (Next, AtCheck, m3, h) ∧
    subs m3 = <[Some a := {[ch := true]}]> (subs m) ∧
    queue (reg m3) = [] ∧
    input m3 = input m.
Proof.
  intros Hopen Hq Hcap.
  set (r1 := mkRegReq (Some a) None purge).
  set (r2 := mkRegReq (Some a) ch register).
  set (m1 := set_reg (enqueue (reg m) r1) m).
  set (m2 := set_reg (enqueue (reg m1) r2) m1).
  assert (subObserver_Close (Some a) m false = Done (None, m1)) as H1.
  { cbn [subObserver_Close]. unfold send. rewrite Hopen, Hq. cbn [length].
    by replace (0 <? cap (reg m)) with true by (symmetry; apply Nat.ltb_lt; lia). }
  assert (subObserver_Register (Some a) m1 false ch = Done m2) as H2.
  { cbn [subObserver_Register]. unfold send. subst m1. cbn [reg set_reg enqueue closed queue cap].
    rewrite Hopen, Hq. cbn [app length].
    by replace (1 <? cap (reg m)) with true by (symmetry; apply Nat.ltb_lt; lia). }
  destruct (run_drain [r1; r2] m2 h [p1; p2] [] []) as (m3 & Hrun & Hsubs & Hreg & Hin).
  { subst m2 m1. cbn [reg set_reg enqueue queue]. by rewrite Hq. }
  { done. }
  exists m1, m2, m3. split; [done|]. split; [done|]. split; [exact Hrun|].
  split; [|split; [by rewrite Hreg|by rewrite Hin]].
  rewrite Hsubs. cbn [foldl]. subst r1 r2.
  rewrite handleReg_register, doReg_subs', handleReg_purge. cbn [tr_sub tr_ch subs set_subs].
  rewrite lookup_delete_eq. cbn [default]. subst m2 m1. cbn [subs set_reg].
  by rewrite insert_delete_eq.
Qed.

(** X11. Requests that find nothing.  On an observer in a state it goes
    through, an unregister request for an endpoint that is not registered
    under the sub-handle, or for a sub-handle that has no group, changes
    nothing; neither does a purge request for a sub-handle that has no
    group. *)
Theorem absent_requests_change_nothing m s ch :
  reachable zero m →
  absent s ch m →
  handleReg m (mkRegReq s ch unregister) = m ∧
  (subs m !! s = None → ∀ c, handleReg m (mkRegReq s c purge) = m).
Proof.
  intros [Hne _]%MuxProps.mux_reachable_invariant Habs. split.
  - unfold handleReg, doUnreg. simpl.
    destruct (subs m !! s) as [mm|] eqn:Hs; [|done].
    rewrite (delete_id mm) by by apply Habs.
    destruct (size mm =? 0) eqn:Hsz.
    + apply Nat.eqb_eq, map_size_empty_iff in Hsz. by destruct (Hne s mm).
    + rewrite insert_id by done. by destruct m.
  - intros Hs c. unfold handleReg. simpl. rewrite delete_id by done. by destruct m.
Qed.

(** X12. Register, then unregister.  On an observer in a state it goes
    through, registering an endpoint that is not registered under the
    sub-handle and then unregistering it gives the observer back as it was:
    the group that the registration made is deleted again, and a group
    that was there keeps its other endpoints. *)
Theorem register_unregister_round_trip m s ch :
  reachable zero m →
  absent s ch m →
  handleReg (handleReg m (mkRegReq s ch register)) (mkRegReq s ch unregister) = m.
Proof.
  intros [Hne _]%MuxProps.mux_reachable_invariant Habs.
  unfold handleReg. simpl. unfold doUnreg. rewrite doReg_subs'. simpl.
  rewrite lookup_insert_eq.
  destruct (subs m !! s) as [mm|] eqn:Hs; simpl.
  - rewrite delete_insert_id by by apply Habs.
    destruct (size mm =? 0) eqn:Hsz.
    + apply Nat.eqb_eq, map_size_empty_iff in Hsz. by destruct (Hne s mm).
    + unfold doReg. simpl. rewrite Hs. simpl.
      rewrite insert_insert_eq, insert_id by done. by destruct m.
  - rewrite delete_insert_id by done. rewrite map_size_empty. simpl.
    unfold doReg. simpl. rewrite Hs. simpl.
    rewrite delete_insert_id by done. by destruct m.
Qed.

(** X13. A request touches one group.  Whatever the request, the loop
    that applies it leaves the group of every other sub-handle, the two
    queues and the endpoints as they are. *)
Theorem other_groups_untouched m h tr s :
  s ≠ tr_sub tr →
  subs (handleReg m tr) !! s = subs m !! s ∧
  reg (handleReg m tr) = reg m ∧
  input (handleReg m tr) = input m ∧
  run_body (RecvReg tr true) m h = (Next, handleReg m tr, h).
Proof.
  intros Hne. split; [|split; [apply MuxProps.handleReg_chans|
                                split; [apply MuxProps.handleReg_chans|done]]].
  unfold handleReg.
  destruct (tr_regType tr =? register)%Z;
    [|destruct (tr_regType tr =? unregister)%Z;
      [|destruct (tr_regType tr =? purge)%Z; [|done]]].
  - rewrite MuxProps.doReg_subs. by rewrite lookup_insert_ne.
  - unfold doUnreg. destruct (subs m !! tr_sub tr) as [mm|]; [|done].
    destruct (size _ =? 0); simpl.
    + by rewrite lookup_delete_ne.
    + by rewrite lookup_insert_ne.
  - simpl. by rewrite lookup_delete_ne.
Qed.





End extra.

(** The theorems at an observer of [int]. *)

Lemma sub_try_submit_boundary_witness :
  let m : MuxObserver nat := mkMuxObserver ∅ (Chan [] 1 false) (Chan [] 1 false) in
  subObserver_TrySubmit (Some 1%positive) m false 7 =
    Done (true, set_input (Chan [mkObservation (Some 1%positive) 7] 1 false) m).
Proof.
  intros m.
  destruct (sub_try_submit_boundary 0 1 1 m m 1%positive 7) as (_ & _ & Hroom).
  - reflexivity.
  - reflexivity.
  - apply Hroom. simpl. lia.
Defined.

Lemma requests_go_first_witness :
  let r1 := mkRegReq (Some 1%positive) (Some 5%positive) register in
  let r2 := mkRegReq (Some 1%positive) (Some 5%positive) unregister in
  let m : MuxObserver nat :=
    mkMuxObserver ∅ (Chan [r1; r2] 2 false)
      (Chan [mkObservation (Some 1%positive) 7] 1 false) in
  ∃ m', run 0 [PickInput None; PickInput None] AtCheck m (∅ : heap nat) =
          (Next, AtCheck, m', ∅) ∧
    subs m' = ∅ ∧ queue (reg m') = [] ∧ input m' = input m.
Proof.
  intros r1 r2 m.
  destruct (requests_go_first 0 [r1; r2] [] m ∅ [PickInput None; PickInput None])
    as (m' & Hrun & Hsubs & Hreg & Hin).
  - reflexivity.
  - reflexivity.
  - exists m'. split; [exact Hrun|]. split; [|split; [exact Hreg|exact Hin]].
    rewrite Hsubs. reflexivity.
Defined.


Lemma purge_forgets_witness :
  let m : MuxObserver nat :=
    mkMuxObserver {[Some 1%positive := {[Some 5%positive := true]}]}
      (Chan [] 2 false) (Chan [] 1 false) in
  ∃ m1 m2 m3,
    subObserver_Close (Some 1%positive) m false = Done (None, m1) ∧
    subObserver_Register (Some 1%positive) m1 false (Some 6%positive) = Done m2 ∧
    run 0 [PickInput None; PickInput None] AtCheck m2 (∅ : heap nat) =
      (Next, AtCheck, m3, ∅) ∧
    subs m3 = <[Some 1%positive := {[Some 6%positive := true]}]> (subs m) ∧
    queue (reg m3) = [] ∧
    input m3 = input m.
Proof.
  intros m.
  apply (purge_forgets 0 m ∅ 1%positive (Some 6%positive) (PickInput None) (PickInput None)).
  - reflexivity.
  - reflexivity.
  - simpl. lia.
Defined.

Lemma observer_with_group_reachable :
  reachable 0 (mkMuxObserver (T:=nat) {[Some 1%positive := {[Some 5%positive := true]}]}
                 (Chan [] 1 false) (Chan [] 1 false)).
Proof.
  apply (MuxProps.mux_reach_step 0 (mkMuxObserver ∅ (Chan [] 1 false) (Chan [] 1 false))).
  - apply (MuxProps.mux_reach_new 0 1 1). reflexivity.
  - apply (step_select 0 _
             (PickReg (Some (mkRegReq (Some 1%positive) (Some 5%positive) register)))
             AtCheck ∅ Next AtCheck _ ∅).
    reflexivity.
Qed.

Lemma absent_requests_change_nothing_witness :
  let m : MuxObserver nat :=
    mkMuxObserver {[Some 1%positive := {[Some 5%positive := true]}]}
      (Chan [] 1 false) (Chan [] 1 false) in
  handleReg m (mkRegReq (Some 1%positive) (Some 6%positive) unregister) = m ∧
  (subs m !! Some 1%positive = None →
   ∀ c, handleReg m (mkRegReq (Some 1%positive) c purge) = m).
Proof.
  intros m. apply (absent_requests_change_nothing 0 m (Some 1%positive) (Some 6%positive)).
  - apply observer_with_group_reachable.
  - intros mm Hmm. vm_compute in Hmm. injection Hmm as <-. reflexivity.
Defined.

Lemma register_unregister_round_trip_witness :
  let m : MuxObserver nat :=
    mkMuxObserver {[Some 1%positive := {[Some 5%positive := true]}]}
      (Chan [] 1 false) (Chan [] 1 false) in
  handleReg (handleReg m (mkRegReq (Some 2%positive) (Some 6%positive) register))
    (mkRegReq (Some 2%positive) (Some 6%positive) unregister) = m.
Proof.
  intros m.
  apply (register_unregister_round_trip 0 m (Some 2%positive) (Some 6%positive)).
  - apply observer_with_group_reachable.
  - intros mm Hmm. vm_compute in Hmm. discriminate Hmm.
Defined.

Lemma other_groups_untouched_witness :
  let m : MuxObserver nat :=
    mkMuxObserver {[Some 1%positive := {[Some 5%positive := true]}]}
      (Chan [] 1 false) (Chan [] 1 false) in
  let tr := mkRegReq (Some 2%positive) (Some 5%positive) purge in
  let h : heap nat := ∅ in
  subs (handleReg m tr) !! Some 1%positive = subs m !! Some 1%positive ∧
  reg (handleReg m tr) = reg m ∧
  input (handleReg m tr) = input m ∧
  run_body (RecvReg tr true) m h = (Next, handleReg m tr, h).
Proof.
  intros m tr h. apply (other_groups_untouched m h tr (Some 1%positive)).
  discriminate.
Defined.



End MuxExtra.
